(** * Static code analyzer: a shallow embedding of [code_analyzer.py]

    The development follows the layout of the program:
    - [PyStr]: the [str] methods the rules call ([rstrip], [split], [lower], ...);
    - [Re]: a backtracking matcher for the fragment of [re] the patterns use,
      with a declarative semantics it is sound and complete for;
    - [Ast]: the syntax trees of the [ast] module, [iter_child_nodes] and [walk];
    - the rules, [analyze_file], [analyze_directory] and [print_issues].

    Modelling conventions.  A Python [str] is a list of characters; a character
    is a code point below 256, and the Unicode tables Python consults
    ([isspace], [lower], the class [\w], the line boundaries of [splitlines])
    are the restrictions of the real tables to that range.  Python integers
    are [Z].  An exception is the [Raise] branch of [result]. *)

From Stdlib Require Import List Ascii ZArith NArith Lia Bool Arith.
From Stdlib Require Import Permutation Sorted DecimalString.
From Stdlib Require String.
Import ListNotations.
Import String.StringSyntax.

Set Implicit Arguments.
Set Warnings "-register-all".
Local Open Scope string_scope.
Local Open Scope list_scope.

(** ** Python strings *)

Module PyStr.

Definition str : Type := list ascii.

(** A string literal of the source. *)
Definition py (s : String.string) : str := String.list_ascii_of_string s.

Definition ord (c : ascii) : N := N_of_ascii c.

Definition in_range (lo hi : N) (c : ascii) : bool :=
  ((lo <=? ord c) && (ord c <=? hi))%N.

(** [str.isspace] on one character; also the class [\s] of [re]. *)
Definition isspace (c : ascii) : bool :=
  in_range 9 13 c || in_range 28 32 c || (ord c =? 133)%N || (ord c =? 160)%N.

(** ASCII and Latin-1 capitals: the characters [str.lower] changes. *)
Definition isupper (c : ascii) : bool :=
  in_range 65 90 c || (in_range 192 222 c && negb (ord c =? 215)%N).

Definition lower_char (c : ascii) : ascii :=
  if isupper c then ascii_of_N (ord c + 32) else c.

Definition lower (s : str) : str := map lower_char s.

(** The class [\w] of [re] on [str] patterns: alphanumeric or underscore. *)
Definition is_word_char (c : ascii) : bool :=
  in_range 48 57 c || in_range 65 90 c || in_range 97 122 c || (ord c =? 95)%N
  || (ord c =? 170)%N || (ord c =? 178)%N || (ord c =? 179)%N || (ord c =? 181)%N
  || (ord c =? 185)%N || (ord c =? 186)%N || in_range 188 190 c
  || in_range 192 214 c || in_range 216 246 c || in_range 248 255 c.

Fixpoint dropwhile (p : ascii -> bool) (s : str) : str :=
  match s with
  | c :: s' => if p c then dropwhile p s' else s
  | [] => []
  end.

(** [s.lstrip()], [s.rstrip()], [s.strip()], and [s.lstrip(' ')]. *)
Definition lstrip (s : str) : str := dropwhile isspace s.
Definition rstrip (s : str) : str := rev (dropwhile isspace (rev s)).
Definition strip (s : str) : str := lstrip (rstrip s).
Definition lstrip_chars (chars : str) (s : str) : str :=
  dropwhile (fun c => existsb (Ascii.eqb c) chars) s.

Fixpoint str_eqb (a b : str) : bool :=
  match a, b with
  | [], [] => true
  | x :: a', y :: b' => Ascii.eqb x y && str_eqb a' b'
  | _, _ => false
  end.

Fixpoint startswith (p s : str) : bool :=
  match p, s with
  | [], _ => true
  | x :: p', y :: s' => Ascii.eqb x y && startswith p' s'
  | _ :: _, [] => false
  end.

Definition endswith (p s : str) : bool := startswith (rev p) (rev s).

(** [sub in s]. *)
Fixpoint contains (sub s : str) : bool :=
  startswith sub s ||
  match s with
  | [] => false
  | _ :: s' => contains sub s'
  end.

(** [s.split(sep)] ([maxsplit = None]) and [s.split(sep, n)]
    ([maxsplit = Some n]) for a one-character separator. *)
Fixpoint split (sep : ascii) (maxsplit : option nat) (s : str) : list str :=
  match s with
  | [] => [[]]
  | c :: s' =>
      match Ascii.eqb c sep, maxsplit with
      | true, None => [] :: split sep None s'
      | true, Some (S n) => [] :: split sep (Some n) s'
      | _, _ =>
          match split sep maxsplit s' with
          | p :: ps => (c :: p) :: ps
          | [] => [[c]]
          end
      end
  end.

(** The line boundaries of [str.splitlines] other than the pair CR LF. *)
Definition is_linebreak (c : ascii) : bool :=
  in_range 10 13 c || in_range 28 30 c || (ord c =? 133)%N.

Fixpoint splitlines_from (cur : str) (s : str) : list str :=
  match s with
  | [] => match cur with [] => [] | _ => [rev cur] end
  | c :: s' =>
      if (ord c =? 13)%N then
        match s' with
        | d :: s'' =>
            if (ord d =? 10)%N then rev cur :: splitlines_from [] s''
            else rev cur :: splitlines_from [] s'
        | [] => [rev cur]
        end
      else if is_linebreak c then rev cur :: splitlines_from [] s'
      else splitlines_from (c :: cur) s'
  end.

Definition splitlines (s : str) : list str := splitlines_from [] s.

(** [str(n)] for an integer. *)
Definition str_of_int (n : Z) : str := py (NilZero.string_of_int (Z.to_int n)).

(** Comparison of strings, [a <= b]: code point by code point. *)
Fixpoint str_compare (a b : str) : comparison :=
  match a, b with
  | [], [] => Eq
  | [], _ :: _ => Lt
  | _ :: _, [] => Gt
  | x :: a', y :: b' =>
      match (ord x ?= ord y)%N with
      | Eq => str_compare a' b'
      | o => o
      end
  end.

End PyStr.
Import PyStr.

(** ** Regular expressions: the fragment of [re] the patterns use *)

Module Re.

(** Syntax.  [Chr c] is a literal character, [Cls p] a character class
    ([[a-z0-9]], [\s], [\w]), [Bol] is [^], [Eol] is [$], [WordB] is [\b],
    [Opt] is the greedy [?], [Star] the greedy [*], [Group] a capturing
    group. *)
Inductive regex : Type :=
| Eps
| Chr (c : ascii)
| Cls (p : ascii -> bool)
| Bol
| Eol
| WordB
| Cat (r1 r2 : regex)
| Opt (r : regex)
| Star (r : regex)
| Group (r : regex).

(** [r+] and [r{2,}], both greedy. *)
Definition Plus (r : regex) : regex := Cat r (Star r).
Definition AtLeast2 (r : regex) : regex := Cat r (Cat r (Star r)).

(** A literal word such as [class]. *)
Fixpoint Lit (w : str) : regex :=
  match w with
  | [] => Eps
  | c :: w' => Cat (Chr c) (Lit w')
  end.

(** The matcher's position in the subject: the character just before the
    cursor ([None] at the start of the string), the text still to read, and
    the text captured by the group closed last. *)
Record cursor : Type := Cursor {
  before : option ascii;
  rest : str;
  captured : option str
}.

Definition step (p : ascii -> bool) (st : cursor) : list cursor :=
  match rest st with
  | c :: t => if p c then [Cursor (Some c) t (captured st)] else []
  | [] => []
  end.

Definition at_word (o : option ascii) : bool :=
  match o with
  | Some c => is_word_char c
  | None => false
  end.

(** [$] without MULTILINE: at the end, or before a newline that ends the
    string. *)
Definition at_end (s : str) : bool :=
  match s with
  | [] => true
  | [c] => (ord c =? 10)%N
  | _ => false
  end.

(** Greedy iteration: one more round first, stop second.  A round has to
    consume a character, so [length (rest st)] rounds are enough. *)
Fixpoint iterate (f : cursor -> list cursor) (fuel : nat) (st : cursor)
  : list cursor :=
  match fuel with
  | O => [st]
  | S k =>
      flat_map (iterate f k)
        (filter (fun st' => length (rest st') <? length (rest st)) (f st))
      ++ [st]
  end.

(** All the ways [r] matches at [st], as the cursors after the match, in the
    order a backtracking matcher tries them. *)
Fixpoint run (r : regex) (st : cursor) : list cursor :=
  match r with
  | Eps => [st]
  | Chr c => step (Ascii.eqb c) st
  | Cls p => step p st
  | Bol => match before st with None => [st] | Some _ => [] end
  | Eol => if at_end (rest st) then [st] else []
  | WordB =>
      if xorb (at_word (before st)) (at_word (hd_error (rest st)))
      then [st] else []
  | Cat r1 r2 => flat_map (run r2) (run r1 st)
  | Opt r1 => run r1 st ++ [st]
  | Star r1 => iterate (run r1) (length (rest st)) st
  | Group r1 =>
      map (fun st' =>
             Cursor (before st') (rest st')
               (Some (firstn (length (rest st) - length (rest st')) (rest st))))
          (run r1 st)
  end.

(** [re.match(pattern, s)]: the first match at the start of [s], if any. *)
Definition re_match (r : regex) (s : str) : option cursor :=
  hd_error (run r (Cursor None s None)).

(** [m.group(1)]. *)
Definition group1 (m : cursor) : str :=
  match captured m with
  | Some g => g
  | None => []
  end.

Definition is_not_None {A : Type} (o : option A) : bool :=
  match o with
  | Some _ => true
  | None => false
  end.

(** The language of a pattern: the words it can consume.  The assertions
    [^], [$] and [\b] consume nothing; a round of [Star] consumes a
    non-empty word. *)
Inductive lang : regex -> str -> Prop :=
| LEps : lang Eps []
| LChr c : lang (Chr c) [c]
| LCls (p : ascii -> bool) c : p c = true -> lang (Cls p) [c]
| LBol : lang Bol []
| LEol : lang Eol []
| LWordB : lang WordB []
| LCat r1 r2 w1 w2 : lang r1 w1 -> lang r2 w2 -> lang (Cat r1 r2) (w1 ++ w2)
| LOptSome r w : lang r w -> lang (Opt r) w
| LOptNone r : lang (Opt r) []
| LStarNil r : lang (Star r) []
| LStarApp r w1 w2 :
    w1 <> [] -> lang r w1 -> lang (Star r) w2 -> lang (Star r) (w1 ++ w2)
| LGroup r w : lang r w -> lang (Group r) w.

(** Patterns without assertions. *)
Fixpoint plain (r : regex) : bool :=
  match r with
  | Eps | Chr _ | Cls _ => true
  | Bol | Eol | WordB => false
  | Cat r1 r2 => plain r1 && plain r2
  | Opt r1 | Star r1 | Group r1 => plain r1
  end.

End Re.
Import Re.

(** ** Naming classifiers *)

Definition lower_or_digit (c : ascii) : bool :=
  in_range 97 122 c || in_range 48 57 c.

Definition upper_letter (c : ascii) : bool := in_range 65 90 c.

(** [_?[a-z0-9]+(_[a-z0-9]+)*_?], the pattern of [is_snake_case] between
    its anchors. *)
Definition snake_body : regex :=
  Cat (Opt (Chr "_"))
    (Cat (Plus (Cls lower_or_digit))
       (Cat (Star (Group (Cat (Chr "_") (Plus (Cls lower_or_digit)))))
          (Opt (Chr "_")))).

(** [^_?[a-z0-9]+(_[a-z0-9]+)*_?$] *)
Definition snake_pattern : regex := Cat Bol (Cat snake_body Eol).

Definition is_snake_case (name : str) : bool :=
  is_not_None (re_match snake_pattern name).

(** [^[A-Z]([a-z0-9]+[A-Z]?)*$] *)
Definition camel_pattern : regex :=
  Cat Bol
    (Cat (Cls upper_letter)
       (Cat (Star (Group (Cat (Plus (Cls lower_or_digit))
                            (Opt (Cls upper_letter)))))
          Eol)).

Definition is_camel_case (name : str) : bool :=
  is_not_None (re_match camel_pattern name).

(** ** Syntax trees *)

Module Ast.

(** The node classes the rules inspect, with the fields of the [ast] module
    in the order of [_fields]; every other class is [Other], which keeps
    the node's line and its child nodes in field order.  [Arguments] and
    [Arg] are the [arguments] and [arg] objects seen as nodes, as [walk]
    yields them. *)
Inductive node : Type :=
| Module (body : list node)
| FunctionDef (lineno : Z) (name : str) (args : arguments)
    (body decorator_list : list node) (returns : option node)
| AsyncFunctionDef (lineno : Z) (name : str) (args : arguments)
    (body decorator_list : list node) (returns : option node)
| Assign (lineno : Z) (targets : list node) (value : node)
| Name (id : str)
| List_ (elts : list node)
| Dict (keys : list (option node)) (values : list node)
| Set_ (elts : list node)
| Call (func : node) (args keywords : list node)
| Other (lineno : Z) (fields : list node)
| Arguments (a : arguments)
| Arg (a : arg)
with arguments : Type :=
| mk_arguments (posonlyargs args : list arg) (vararg : option arg)
    (kwonlyargs : list arg) (kw_defaults : list (option node))
    (kwarg : option arg) (defaults : list node)
with arg : Type :=
| mk_arg (lineno : Z) (arg_name : str) (annotation : option node).

Definition arguments_args (a : arguments) : list arg :=
  match a with mk_arguments _ args _ _ _ _ _ => args end.

Definition arguments_defaults (a : arguments) : list node :=
  match a with mk_arguments _ _ _ _ _ _ defaults => defaults end.

Definition arg_lineno (a : arg) : Z :=
  match a with mk_arg l _ _ => l end.

Definition arg_arg (a : arg) : str :=
  match a with mk_arg _ n _ => n end.

Definition of_option {A : Type} (o : option A) : list A :=
  match o with
  | Some x => [x]
  | None => []
  end.

(** The entries of a list field that are nodes ([None] entries are not). *)
Definition present {A : Type} (l : list (option A)) : list A :=
  flat_map of_option l.

(** [ast.iter_child_nodes]: the child nodes, field by field. *)
Definition iter_child_nodes (n : node) : list node :=
  match n with
  | Module body => body
  | FunctionDef _ _ a body decorator_list returns
  | AsyncFunctionDef _ _ a body decorator_list returns =>
      Arguments a :: body ++ decorator_list ++ of_option returns
  | Assign _ targets value => targets ++ [value]
  | Name _ => []
  | List_ elts | Set_ elts => elts
  | Dict keys values => present keys ++ values
  | Call func args keywords => func :: args ++ keywords
  | Other _ fields => fields
  | Arguments (mk_arguments posonlyargs args vararg kwonlyargs kw_defaults
                 kwarg defaults) =>
      map Arg posonlyargs ++ map Arg args ++ map Arg (of_option vararg)
      ++ map Arg kwonlyargs ++ present kw_defaults
      ++ map Arg (of_option kwarg) ++ defaults
  | Arg (mk_arg _ _ annotation) => of_option annotation
  end.

Definition sum_by {A : Type} (f : A -> nat) (l : list A) : nat :=
  list_sum (map f l).

Definition opt_by {A : Type} (f : A -> nat) (o : option A) : nat :=
  match o with
  | Some x => f x
  | None => 0
  end.

(** The number of nodes of a tree. *)
Fixpoint size (n : node) : nat :=
  match n with
  | Module body => S (sum_by size body)
  | FunctionDef _ _ a body decorator_list returns
  | AsyncFunctionDef _ _ a body decorator_list returns =>
      S (S (size_arguments a) + sum_by size body + sum_by size decorator_list
         + opt_by size returns)
  | Assign _ targets value => S (sum_by size targets + size value)
  | Name _ => 1
  | List_ elts | Set_ elts => S (sum_by size elts)
  | Dict keys values => S (sum_by (opt_by size) keys + sum_by size values)
  | Call func args keywords =>
      S (size func + sum_by size args + sum_by size keywords)
  | Other _ fields => S (sum_by size fields)
  | Arguments a => S (size_arguments a)
  | Arg a => S (size_arg a)
  end
with size_arguments (a : arguments) : nat :=
  match a with
  | mk_arguments posonlyargs args vararg kwonlyargs kw_defaults kwarg
      defaults =>
      sum_by (fun x => S (size_arg x)) posonlyargs
      + sum_by (fun x => S (size_arg x)) args
      + opt_by (fun x => S (size_arg x)) vararg
      + sum_by (fun x => S (size_arg x)) kwonlyargs
      + sum_by (opt_by size) kw_defaults
      + opt_by (fun x => S (size_arg x)) kwarg
      + sum_by size defaults
  end
with size_arg (a : arg) : nat :=
  match a with
  | mk_arg _ _ annotation => opt_by size annotation
  end.

(** [ast.walk]: breadth first, with the queue [todo] of the source.  Every
    round takes one node off the queue, so a tree of [size n] nodes is
    walked in [size n] rounds. *)
Fixpoint walk_queue (fuel : nat) (todo : list node) : list node :=
  match fuel, todo with
  | S k, n :: todo' => n :: walk_queue k (todo' ++ iter_child_nodes n)
  | _, _ => []
  end.

Definition walk (n : node) : list node := walk_queue (size n) [n].

(** The nodes of a tree, parents before children, depth first. *)
Definition subtree_step (rec : node -> list node) (n : node) : list node :=
  n :: flat_map rec (iter_child_nodes n).

Fixpoint subtree_upto (fuel : nat) (n : node) : list node :=
  match fuel with
  | O => []
  | S k => subtree_step (subtree_upto k) n
  end.

Definition subtree (n : node) : list node := subtree_upto (size n) n.

End Ast.
Import Ast.

(** ** Issues, exceptions and loops *)

(** An issue is the tuple [(line_number, message, file_path)]. *)
Definition issue : Type := Z * str * str.

Definition issue_line (x : issue) : Z := fst (fst x).
Definition issue_message (x : issue) : str := snd (fst x).
Definition issue_file (x : issue) : str := snd x.

(** The rule code of an issue: the first four characters of its message. *)
Definition issue_code (x : issue) : str := firstn 4 (issue_message x).

Inductive exn : Type :=
| SyntaxError
| ValueError
| OSError
| SystemExit (status : Z).

Inductive result (A : Type) : Type :=
| Return (a : A)
| Raise (e : exn).

Arguments Return {A} a.
Arguments Raise {A} e.

Definition bind {A B : Type} (m : result A) (k : A -> result B) : result B :=
  match m with
  | Return a => k a
  | Raise e => Raise e
  end.

Notation "x <- m ;; k" := (bind m (fun x => k))
  (at level 61, m at next level, right associativity).

(** [enumerate(l, start)]. *)
Fixpoint enumerate {A : Type} (start : Z) (l : list A) : list (Z * A) :=
  match l with
  | [] => []
  | x :: l' => (start, x) :: enumerate (start + 1) l'
  end.

(** A [for] loop whose body appends to [issues] and may raise. *)
Fixpoint for_each {A B : Type} (body : A -> result (list B)) (l : list A)
  : result (list B) :=
  match l with
  | [] => Return []
  | x :: l' =>
      ys <- body x ;;
      zs <- for_each body l' ;;
      Return (ys ++ zs)
  end.

(** ** Line rules *)

Definition is_line_too_long (line_of_code : str) : bool :=
  (79 <? Z.of_nat (length (rstrip line_of_code)))%Z.

Definition is_indentation_not_multiple_of_four (line_of_code : str) : bool :=
  let leading_spaces :=
    (Z.of_nat (length line_of_code)
     - Z.of_nat (length (lstrip_chars (py " ") line_of_code)))%Z in
  negb (leading_spaces mod 4 =? 0)%Z && negb (leading_spaces =? 0)%Z.

Definition has_unnecessary_semicolon (line_of_code : str) : bool :=
  let clean_line := rstrip (nth 0 (split "#" (Some 1%nat) line_of_code) []) in
  endswith (py ";") clean_line && negb (str_eqb clean_line (py ";")).

Definition has_less_than_two_spaces_before_inline_comment (line_of_code : str)
  : bool :=
  if contains (py "#") line_of_code then
    let parts := split "#" (Some 1%nat) line_of_code in
    negb (length (nth 0 parts []) =? 0)
    && negb (endswith (py "  ") (nth 0 parts []))
    && negb (endswith ["009"%char] (nth 0 parts []))
  else false.

Definition has_todo_comment (line_of_code : str) : bool :=
  let comment_parts := split "#" None line_of_code in
  if 1 <? length comment_parts then
    let comment := nth 1 comment_parts [] in
    contains (py "todo") (lower comment)
  else false.

(** [\bclass\s{2,}] and [\bdef\s{2,}] *)
Definition class_spaces_pattern : regex :=
  Cat WordB (Cat (Lit (py "class")) (AtLeast2 (Cls isspace))).

Definition def_spaces_pattern : regex :=
  Cat WordB (Cat (Lit (py "def")) (AtLeast2 (Cls isspace))).

Definition check_too_many_spaces_after_construction_name (line_of_code : str)
  : bool * option str :=
  let match_class := re_match class_spaces_pattern line_of_code in
  let match_def := re_match def_spaces_pattern (lstrip line_of_code) in
  if is_not_None match_class then (true, Some (py "class"))
  else if is_not_None match_def then (true, Some (py "def"))
  else (false, None).

(** ** The blank-run rule *)

(** One round of the loop of [has_more_than_two_blank_lines]; the state is
    [(issue_lines, blank_line_count)]. *)
Definition blank_lines_step (state : list Z * Z) (item : Z * str)
  : list Z * Z :=
  let '(issue_lines, blank_line_count) := state in
  let '(i, line) := item in
  if str_eqb (strip line) [] then (issue_lines, blank_line_count + 1)%Z
  else
    (if (2 <? blank_line_count)%Z
     then issue_lines ++ [i - blank_line_count + blank_line_count + 1]%Z
     else issue_lines,
     0%Z).

Definition has_more_than_two_blank_lines (lines : list str) : list Z :=
  fst (fold_left blank_lines_step (enumerate 0 lines) ([], 0%Z)).

(** ** Tree rules *)

Definition check_function_args (n : node) (filepath : str) : list issue :=
  match n with
  | FunctionDef _ _ a _ _ _ =>
      flat_map
        (fun x =>
           if negb (is_snake_case (arg_arg x)) then
             [(arg_lineno x,
               py "S010 Argument name '" ++ arg_arg x
                 ++ py "' should be snake_case",
               filepath)]
           else [])
        (arguments_args a)
  | _ => []
  end.

(** The issues of one node met by the walk of
    [check_function_body_for_variables]. *)
Definition check_assign_targets (body_node : node) (filepath : str)
  : list issue :=
  match body_node with
  | Assign lineno targets _ =>
      flat_map
        (fun target =>
           match target with
           | Name id =>
               if negb (is_snake_case id) then
                 [(lineno,
                   py "S011 Variable '" ++ id
                     ++ py "' in function should be snake_case",
                   filepath)]
               else []
           | _ => []
           end)
        targets
  | _ => []
  end.

Definition check_function_body_for_variables (n : node) (filepath : str)
  : list issue :=
  flat_map (fun body_node => check_assign_targets body_node filepath) (walk n).

Definition check_mutable_default_arguments (n : node) (filepath : str)
  : list issue :=
  match n with
  | FunctionDef lineno _ a _ _ _ =>
      flat_map
        (fun default =>
           match default with
           | List_ _ | Dict _ _ | Set_ _ =>
               [(lineno, py "S012 Default argument value is mutable", filepath)]
           | _ => []
           end)
        (arguments_defaults a)
  | _ => []
  end.

(** The issues of one node met by the walk of [check_function_defs]. *)
Definition check_function_def (n : node) (filepath : str) : list issue :=
  match n with
  | FunctionDef lineno name _ _ _ _ =>
      (if negb (startswith (py "__") name && endswith (py "__") name) then
         if negb (is_snake_case name) then
           [(lineno,
             py "S009 Function name '" ++ name ++ py "' should use snake_case",
             filepath)]
         else []
       else [])
      ++ check_function_args n filepath
      ++ check_function_body_for_variables n filepath
      ++ check_mutable_default_arguments n filepath
  | _ => []
  end.

Definition check_function_defs (tree : node) (filepath : str) : list issue :=
  flat_map (fun n => check_function_def n filepath) (walk tree).

(** ** The file analyzer and the report *)

(** [class\s+(\w+)] *)
Definition class_name_pattern : regex :=
  Cat (Lit (py "class"))
    (Cat (Plus (Cls isspace)) (Group (Plus (Cls is_word_char)))).

(** The body of the loop over the lines in [analyze_file]. *)
Definition line_rules (file_path : str) (item : Z * str) : list issue :=
  let '(line_number, line_of_code) := item in
  (if is_line_too_long line_of_code
   then [(line_number, py "S001 Too long", file_path)] else [])
  ++ (if is_indentation_not_multiple_of_four line_of_code
      then [(line_number, py "S002 Indentation is not a multiple of four",
             file_path)]
      else [])
  ++ (if has_unnecessary_semicolon line_of_code
      then [(line_number, py "S003 Unnecessary semicolon", file_path)]
      else [])
  ++ (if has_less_than_two_spaces_before_inline_comment line_of_code
      then [(line_number,
             py "S004 At least two spaces required before inline comments",
             file_path)]
      else [])
  ++ (if has_todo_comment line_of_code
      then [(line_number, py "S005 TODO found", file_path)] else [])
  ++ (match check_too_many_spaces_after_construction_name line_of_code with
      | (true, Some construction_name) =>
          [(line_number,
            py "S007 Too many spaces after '" ++ construction_name ++ py "'",
            file_path)]
      | _ => []
      end)
  ++ (match re_match class_name_pattern line_of_code with
      | Some class_match =>
          let class_name := group1 class_match in
          if negb (is_camel_case class_name) then
            [(line_number,
              py "S008 Class name '" ++ class_name
                ++ py "' should use CamelCase",
              file_path)]
          else []
      | None => []
      end).

(** The issues [analyze_file] has collected when it calls the parser: the
    line rules over every line, then the blank-run rule. *)
Definition line_level_issues (file_path : str) (code : str) : list issue :=
  let lines := splitlines code in
  flat_map (line_rules file_path) (enumerate 1 lines)
  ++ map (fun line_number =>
            (line_number, py "S006 More than two blank lines used", file_path))
       (has_more_than_two_blank_lines lines).

(** [sorted(l, key=key)]: a stable sort, here by insertion. *)
Section Sorted.

Variables (A K : Type) (key : A -> K) (leb : K -> K -> bool).

Fixpoint insert (x : A) (l : list A) : list A :=
  match l with
  | [] => [x]
  | y :: l' => if leb (key x) (key y) then x :: l else y :: insert x l'
  end.

Fixpoint sorted (l : list A) : list A :=
  match l with
  | [] => []
  | x :: l' => insert x (sorted l')
  end.

End Sorted.

(** The order of the tuples [(file_path, line_number, message)]. *)
Definition key_leb (a b : str * Z * str) : bool :=
  let '(f1, l1, m1) := a in
  let '(f2, l2, m2) := b in
  match str_compare f1 f2 with
  | Lt => true
  | Gt => false
  | Eq =>
      match (l1 ?= l2)%Z with
      | Lt => true
      | Gt => false
      | Eq => match str_compare m1 m2 with Gt => false | _ => true end
      end
  end.

(** [lambda x: (x[2], x[0], x[1])] *)
Definition sort_key (x : issue) : str * Z * str :=
  (issue_file x, issue_line x, issue_message x).

Section Analyzer.

(** The world outside the program: the file system ([open] and [read],
    [os.walk], [os.path.join], [os.path.isdir], [os.path.isfile],
    [os.path.relpath] from the working directory) and the parser. *)
Variable read_file : str -> result str.
Variable ast_parse : str -> result node.
Variable os_walk : str -> list (str * list str * list str).
Variable path_join : str -> str -> str.
Variable isdir isfile : str -> bool.
Variable relpath : str -> str.

Definition analyze_code_with_ast (code filepath : str) : result (list issue) :=
  tree <- ast_parse code ;;
  Return (check_function_defs tree filepath).

Definition analyze_file (file_path : str) : result (list issue) :=
  code <- read_file file_path ;;
  let issues := line_level_issues file_path code in
  tree_issues <- analyze_code_with_ast code file_path ;;
  Return (issues ++ tree_issues).

(** The files [analyze_directory] analyzes, in the order of the walk. *)
Definition python_files (directory_path : str) : list str :=
  flat_map
    (fun entry =>
       let '(root, _, files) := entry in
       map (path_join root) (filter (endswith (py ".py")) files))
    (os_walk directory_path).

Definition analyze_directory (directory_path : str) : result (list issue) :=
  for_each analyze_file (python_files directory_path).

Definition render (x : issue) : str :=
  let '(line_number, message, file_path) := x in
  relpath file_path ++ py ": Line " ++ str_of_int line_number ++ py ": "
  ++ message.

Definition sorted_issues (issues : list issue) : list issue :=
  sorted sort_key key_leb issues.

(** [print_issues]: the lines written to the standard output. *)
Definition print_issues (issues : list issue) : list str :=
  map render (sorted_issues issues).

(** The script for one path argument: the lines printed, or the exception
    that ends the run. *)
Definition main (path : str) : result (list str) :=
  if isdir path then
    issues <- analyze_directory path ;;
    Return (print_issues issues)
  else if isfile path then
    issues <- analyze_file path ;;
    Return (print_issues issues)
  else Raise (SystemExit 1).

End Analyzer.

(** ** The order of the report, as the specification words it *)

(** Lexicographic order of strings by code point. *)
Inductive str_lt : str -> str -> Prop :=
| str_lt_nil c b : str_lt [] (c :: b)
| str_lt_head x y a b : (ord x < ord y)%N -> str_lt (x :: a) (y :: b)
| str_lt_tail c a b : str_lt a b -> str_lt (c :: a) (c :: b).

Definition str_le (a b : str) : Prop := str_lt a b \/ a = b.

(** Ascending order of the composite key (file, line, message). *)
Definition issue_le (x y : issue) : Prop :=
  str_lt (issue_file x) (issue_file y)
  \/ (issue_file x = issue_file y
      /\ ((issue_line x < issue_line y)%Z
          \/ (issue_line x = issue_line y
              /\ str_le (issue_message x) (issue_message y)))).

(** ** Blank runs *)

(** The test of the blank-run loop: [line.strip() == '']. *)
Definition is_blank (line : str) : bool := str_eqb (strip line) [].

(** A blank run that starts after the lines [pre] cannot be extended to the
    left: [pre] is empty or ends with a line that is not blank. *)
Definition run_starts_after (pre : list str) : Prop :=
  pre = [] \/ exists pre' x, pre = pre' ++ [x] /\ is_blank x = false.

(** The loop of [has_more_than_two_blank_lines] seen from the line of index
    [i] with [c] blank lines counted so far: the line numbers it appends,
    and the count it ends with. *)
Fixpoint fires_from (i c : Z) (lines : list str) : list Z :=
  match lines with
  | [] => []
  | l :: ls =>
      if is_blank l then fires_from (i + 1) (c + 1) ls
      else (if (2 <? c)%Z then [(i + 1)%Z] else []) ++ fires_from (i + 1) 0 ls
  end.

Fixpoint count_after (c : Z) (lines : list str) : Z :=
  match lines with
  | [] => c
  | l :: ls => count_after (if is_blank l then c + 1 else 0)%Z ls
  end.

(** ** Positions in a tree *)

(** [within d n]: the node [d] is [n] or lies below it. *)
Inductive within : node -> node -> Prop :=
| within_here n : within n n
| within_child n c d : In c (iter_child_nodes n) -> within d c -> within d n.

Definition is_function_def (n : node) : bool :=
  match n with
  | FunctionDef _ _ _ _ _ _ => true
  | _ => false
  end.

(** The nodes of a tree, each with the number of [FunctionDef] nodes on the
    way from the root to it, itself included. *)
Fixpoint nesting_upto (fuel : nat) (depth : nat) (n : node)
  : list (nat * node) :=
  match fuel with
  | O => []
  | S k =>
      let depth' := if is_function_def n then S depth else depth in
      (depth', n) :: flat_map (nesting_upto k depth') (iter_child_nodes n)
  end.

Definition nesting (n : node) : list (nat * node) :=
  nesting_upto (size n) 0 n.

(** [depth_of n d k]: the node [d] lies in the tree [n], and [k] function
    declarations stand on the way from [n] down to [d], both included. *)
Inductive depth_of : node -> node -> nat -> Prop :=
| depth_here n : depth_of n n (if is_function_def n then 1 else 0)
| depth_child n c d k :
    In c (iter_child_nodes n) -> depth_of c d k ->
    depth_of n d ((if is_function_def n then 1 else 0) + k).

(** [copies k l]: the list [l], [k] times. *)
Definition copies {A : Type} (k : nat) (l : list A) : list A :=
  concat (repeat l k).

(** The literal syntax of a list, a mapping or a set. *)
Definition is_mutable_literal (n : node) : bool :=
  match n with
  | List_ _ | Dict _ _ | Set_ _ => true
  | _ => false
  end.

Definition has_code (code : str) (x : issue) : bool :=
  str_eqb (issue_code x) code.

Definition no_arguments : arguments := mk_arguments [] [] None [] [] None [].

(** A function whose only parameter, [a], is keyword-only (it follows a
    bare star in the signature) and has the default [[]]; its body is
    [pass]. *)
Definition kwonly_mutable_default : node :=
  Module
    [FunctionDef 1 (py "f")
       (mk_arguments [] [] None [mk_arg 1 (py "a") None] [Some (List_ [])]
          None [])
       [Other 1 []] [] None].

(** [def f(): a = B = 1], the assignment on line 2. *)
Definition chained_assignment : node :=
  Module
    [FunctionDef 1 (py "f") no_arguments
       [Assign 2 [Name (py "a"); Name (py "B")] (Other 2 [])] [] None].

(** An assignment with one target, a plain name. *)
Definition is_simple_assignment (n : node) : bool :=
  match n with
  | Assign _ [Name _] _ => true
  | _ => false
  end.

(** [def outer(): def inner(): Bad = 1], one statement per line. *)
Definition nested_functions : node :=
  Module
    [FunctionDef 1 (py "outer") no_arguments
       [FunctionDef 2 (py "inner") no_arguments
          [Assign 3 [Name (py "Bad")] (Other 3 [])] [] None]
       [] None].

(** The S011 issues of the assignments of a tree, each once. *)
Definition assigned (fp : str) (n : node) : list issue :=
  flat_map (fun m => check_assign_targets m fp) (subtree n).

(** The S011 issues of the function declarations of a tree: for each of
    them, those of the assignments below it. *)
Definition reported (fp : str) (n : node) : list issue :=
  flat_map (fun m => if is_function_def m then assigned fp m else [])
    (subtree n).

Definition by_depth (fp : str) (item : nat * node) : list issue :=
  copies (fst item) (check_assign_targets (snd item) fp).

(** ** What a pattern can match: characters and underscores *)

Definition all_ascii : list ascii := map ascii_of_nat (seq 0 256).

(** Every character the pattern can consume satisfies [ok]. *)
Fixpoint chars_within (ok : ascii -> bool) (r : regex) : bool :=
  match r with
  | Eps | Bol | Eol | WordB => true
  | Chr c => ok c
  | Cls p => forallb (fun c => implb (p c) (ok c)) all_ascii
  | Cat r1 r2 => chars_within ok r1 && chars_within ok r2
  | Opt r1 | Star r1 | Group r1 => chars_within ok r1
  end.

Definition is_underscore (c : ascii) : bool := Ascii.eqb c "_".

Definition starts_us (w : str) : bool :=
  match w with
  | c :: _ => is_underscore c
  | [] => false
  end.

Fixpoint ends_us (w : str) : bool :=
  match w with
  | [] => false
  | [c] => is_underscore c
  | _ :: w' => ends_us w'
  end.

(** What the words of a pattern may look like: empty, starting with an
    underscore, ending with one, holding two in a row. *)
Record shape : Type := Shape {
  may_be_empty : bool;
  may_start_us : bool;
  may_end_us : bool;
  may_double_us : bool
}.

Fixpoint shape_of (r : regex) : shape :=
  match r with
  | Eps | Bol | Eol | WordB => Shape true false false false
  | Chr c => Shape false (is_underscore c) (is_underscore c) false
  | Cls p => Shape false (p "_"%char) (p "_"%char) false
  | Cat r1 r2 =>
      let a := shape_of r1 in
      let b := shape_of r2 in
      Shape (may_be_empty a && may_be_empty b)
        (may_start_us a || (may_be_empty a && may_start_us b))
        (may_end_us b || (may_be_empty b && may_end_us a))
        (may_double_us a || may_double_us b || (may_end_us a && may_start_us b))
  | Opt r1 | Group r1 =>
      let a := shape_of r1 in
      Shape true (may_start_us a) (may_end_us a) (may_double_us a)
  | Star r1 =>
      let a := shape_of r1 in
      Shape true (may_start_us a) (may_end_us a)
        (may_double_us a || (may_end_us a && may_start_us a))
  end.

(** ** Comments, as the specification words rule S005 *)

(** The text after the first comment marker of a line, if it has one. *)
Fixpoint after_first_marker (line : str) : option str :=
  match line with
  | [] => None
  | c :: t => if Ascii.eqb c "#" then Some t else after_first_marker t
  end.

(** The line has a marker and the text after the first one, in lower case,
    contains [todo]. *)
Definition todo_after_first_marker (line : str) : bool :=
  match after_first_marker line with
  | Some comment => contains (py "todo") (lower comment)
  | None => false
  end.

(** A line whose comment holds a second marker before the word TODO. *)
Definition todo_behind_second_marker : str := py "x = 1  # fix # TODO later".

(** ** Sample inputs *)

(** [def f(a=[]): pass] *)
Definition positional_mutable_default : node :=
  Module
    [FunctionDef 1 (py "f")
       (mk_arguments [] [mk_arg 1 (py "a") None] None [] [] None [List_ []])
       [Other 1 []] [] None].

(** [def f(): Bad = 1], the assignment on line 2. *)
Definition simple_assignment : node :=
  Module
    [FunctionDef 1 (py "f") no_arguments
       [Assign 2 [Name (py "Bad")] (Other 2 [])] [] None].

(** A directory [d] with the files [a.py], holding [x = 1;], and [b.py],
    holding [class  a: pass], and a file that is not Python source; two
    walks of it that list the files in different orders. *)
Definition sample_read_file (path : str) : result str :=
  if str_eqb path (py "d/a.py") then Return (py "x = 1;")
  else if str_eqb path (py "d/b.py") then Return (py "class  a: pass")
  else Raise OSError.

Definition sample_parse (code : str) : result node :=
  if str_eqb code (py "x = 1;") then
    Return (Module [Assign 1 [Name (py "x")] (Other 1 [])])
  else if str_eqb code (py "class  a: pass") then
    Return (Module [Other 1 [Other 1 []]])
  else Raise SyntaxError.

Definition sample_join (root file : str) : str := root ++ py "/" ++ file.

Definition sample_walk (path : str) : list (str * list str * list str) :=
  [(py "d", [], [py "b.py"; py "notes.txt"; py "a.py"])].

Definition sample_walk_again (path : str)
  : list (str * list str * list str) :=
  [(py "d", [], [py "a.py"; py "b.py"; py "notes.txt"])].

(** ** Further functions of the program *)

(** [print_file_issues]: the lines written to the standard output.  The
    issues are sorted by line number alone, and every line is printed under
    the path passed as [file_path]. *)
Definition print_file_issues (relpath : str -> str) (file_path : str)
    (issues : list issue) : list str :=
  let relative_path := relpath file_path in
  map (fun x =>
         relative_path ++ py ": Line " ++ str_of_int (issue_line x) ++ py ": "
         ++ issue_message x)
    (sorted issue_line Z.leb issues).

(** ** Shapes of lines *)

(** The text does not end with white space. *)
Definition ends_visible (text : str) : bool :=
  match rev text with
  | [] => true
  | c :: _ => negb (isspace c)
  end.

(** The text does not begin with the character [c]. *)
Definition starts_without (c : ascii) (text : str) : bool :=
  match text with
  | [] => true
  | x :: _ => negb (Ascii.eqb x c)
  end.

Definition spaces (k : nat) : str := repeat " "%char k.

Definition no_marker (text : str) : bool := negb (contains (py "#") text).

(** The text [s] begins with the word [kw] followed by at least two
    white-space characters. *)
Definition two_spaces_after (kw s : str) : bool :=
  startswith kw s
  && match skipn (length kw) s with
     | c1 :: c2 :: _ => isspace c1 && isspace c2
     | _ => false
     end.

(** The character before the cursor once the matcher has read [w]. *)
Fixpoint prev_after (o : option ascii) (w : str) : option ascii :=
  match w with
  | [] => o
  | c :: w' => prev_after (Some c) w'
  end.

(** The text does not begin with a character of the class [p]. *)
Definition starts_outside (p : ascii -> bool) (t : str) : bool :=
  match t with
  | [] => true
  | c :: _ => negb (p c)
  end.

(** ** Neighbouring characters of a class *)

(** Two characters of the class [q] stand side by side in [w]. *)
Fixpoint adjacent (q : ascii -> bool) (w : str) : bool :=
  match w with
  | x :: ((y :: _) as t) => (q x && q y) || adjacent q t
  | _ => false
  end.

Definition starts_in (q : ascii -> bool) (w : str) : bool :=
  match w with
  | c :: _ => q c
  | [] => false
  end.

Fixpoint ends_in (q : ascii -> bool) (w : str) : bool :=
  match w with
  | [] => false
  | [c] => q c
  | _ :: w' => ends_in q w'
  end.

(** What the words of a pattern may look like with respect to the class
    [q]: empty, starting in [q], ending in [q], holding two neighbours
    in [q]. *)
Record edges : Type := Edges {
  can_be_empty : bool;
  can_start_in : bool;
  can_end_in : bool;
  can_have_adjacent : bool
}.

Fixpoint edges_of (q : ascii -> bool) (r : regex) : edges :=
  match r with
  | Eps | Bol | Eol | WordB => Edges true false false false
  | Chr c => Edges false (q c) (q c) false
  | Cls p =>
      let some := existsb (fun c => p c && q c) all_ascii in
      Edges false some some false
  | Cat r1 r2 =>
      let a := edges_of q r1 in
      let b := edges_of q r2 in
      Edges (can_be_empty a && can_be_empty b)
        (can_start_in a || (can_be_empty a && can_start_in b))
        (can_end_in b || (can_be_empty b && can_end_in a))
        (can_have_adjacent a || can_have_adjacent b
         || (can_end_in a && can_start_in b))
  | Opt r1 | Group r1 =>
      let a := edges_of q r1 in
      Edges true (can_start_in a) (can_end_in a) (can_have_adjacent a)
  | Star r1 =>
      let a := edges_of q r1 in
      Edges true (can_start_in a) (can_end_in a)
        (can_have_adjacent a || (can_end_in a && can_start_in a))
  end.

(** [[A-Z]([a-z0-9]+[A-Z]?)*], the pattern of [is_camel_case] between its
    anchors. *)
Definition camel_body : regex :=
  Cat (Cls upper_letter)
    (Star (Group (Cat (Plus (Cls lower_or_digit)) (Opt (Cls upper_letter))))).

Definition newline : ascii := "010"%char.

(** A name of the special form: it begins and ends with two underscores. *)
Definition is_dunder (name : str) : bool :=
  startswith (py "__") name && endswith (py "__") name.

(** A module with an assignment, a class and an [async def], and no [def]:
    [Bad = 1], [class C: Worse = 2], [async def Run(Arg=[]): Local = 3]. *)
Definition module_without_def : node :=
  Module
    [Assign 1 [Name (py "Bad")] (Other 1 []);
     Other 2 [Assign 3 [Name (py "Worse")] (Other 3 [])];
     AsyncFunctionDef 4 (py "Run")
       (mk_arguments [] [mk_arg 4 (py "Arg") None] None [] [] None [List_ []])
       [Assign 5 [Name (py "Local")] (Other 5 [])] [] None].

(** [def Bad(Arg, ok): pass] and [def __Init__(self): pass]. *)
Definition badly_named_functions : node :=
  Module
    [FunctionDef 1 (py "Bad")
       (mk_arguments [] [mk_arg 1 (py "Arg") None; mk_arg 1 (py "ok") None]
          None [] [] None [])
       [Other 1 []] [] None;
     FunctionDef 2 (py "__Init__")
       (mk_arguments [] [mk_arg 2 (py "self") None] None [] [] None [])
       [Other 2 []] [] None].

(** The codes of the rules that read the lines of a file. *)
Definition line_codes : list str :=
  [py "S001"; py "S002"; py "S003"; py "S004"; py "S005"; py "S006";
   py "S007"; py "S008"].

Definition has_line_code (x : issue) : bool :=
  existsb (str_eqb (issue_code x)) line_codes.

(** Issues of one file given out of order, two of them on line 3. *)
Definition unordered_issues : list issue :=
  [(5%Z, py "S002 Indentation is not a multiple of four", py "a.py");
   (3%Z, py "S008 Class name 'x' should use CamelCase", py "a.py");
   (3%Z, py "S001 Too long", py "a.py")].

(** ** Rule S011, as the claims word it *)

(** The issue of rule S011 for the name [id] assigned on line [lineno]. *)
Definition variable_issue (fp : str) (lineno : Z) (id : str) : issue :=
  (lineno,
   py "S011 Variable '" ++ id ++ py "' in function should be snake_case",
   fp).

(** The targets of an assignment that are plain names and not snake_case,
    in the order of the statement. *)
Fixpoint misnamed_targets (targets : list node) : list str :=
  match targets with
  | [] => []
  | Name id :: rest =>
      if is_snake_case id then misnamed_targets rest
      else id :: misnamed_targets rest
  | _ :: rest => misnamed_targets rest
  end.

(** One S011 issue for each misnamed target of an assignment; nothing for
    a node of another kind. *)
Definition assignment_issues (fp : str) (n : node) : list issue :=
  match n with
  | Assign lineno targets _ =>
      map (variable_issue fp lineno) (misnamed_targets targets)
  | _ => []
  end.

(** [async def outer(): def inner(): Bad = 1], one statement per line. *)
Definition nested_in_async : node :=
  Module
    [AsyncFunctionDef 1 (py "outer") no_arguments
       [FunctionDef 2 (py "inner") no_arguments
          [Assign 3 [Name (py "Bad")] (Other 3 [])] [] None]
       [] None].

(* ================================================================== *)
(** * Properties *)

Example splitlines_ex :
  splitlines (py "a" ++ ["010"%char] ++ ["010"%char] ++ py "b" ++ ["013"%char; "010"%char])
  = [py "a"; []; py "b"].
Proof. reflexivity. Qed.

Example split_ex : split "#" (Some 1%nat) (py "a#b#c") = [py "a"; py "b#c"].
Proof. reflexivity. Qed.

Example split_all_ex : split "#" None (py "a#b#c") = [py "a"; py "b"; py "c"].
Proof. reflexivity. Qed.

Example str_of_int_ex : str_of_int 120 = py "120" /\ str_of_int 0 = py "0".
Proof. split; reflexivity. Qed.

Example snake_ex :
  map (fun s => is_snake_case (py s))
    ["snake_case"; "_x1"; "a_"; "Bad_Name"; "a__b"; "__init__"; ""; "_"; "x"]
  = [true; true; true; false; false; false; false; false; true].
Proof. reflexivity. Qed.

Example camel_ex :
  map (fun s => is_camel_case (py s))
    ["MyClass"; "myClass"; "A"; "HTTPServer"; "My_Class"; "AbC"; ""]
  = [true; false; true; false; false; true; false].
Proof. reflexivity. Qed.

(** ** Comparison of strings *)

Lemma ord_inj (x y : ascii) : ord x = ord y -> x = y.
Proof.
  unfold ord. intros H.
  rewrite <- (ascii_N_embedding x), <- (ascii_N_embedding y). now rewrite H.
Qed.

Lemma str_compare_refl (a : str) : str_compare a a = Eq.
Proof.
  induction a as [|x a IH]; simpl; [reflexivity|].
  now rewrite N.compare_refl.
Qed.

Lemma str_compare_eq (a b : str) : str_compare a b = Eq -> a = b.
Proof.
  revert b. induction a as [|x a IH]; intros [|y b]; simpl; try discriminate.
  - reflexivity.
  - destruct (ord x ?= ord y)%N eqn:E; try discriminate.
    intros H. apply N.compare_eq in E. apply ord_inj in E.
    f_equal; [assumption | now apply IH].
Qed.

Lemma str_compare_antisym (a b : str) :
  str_compare b a = CompOpp (str_compare a b).
Proof.
  revert b. induction a as [|x a IH]; intros [|y b]; simpl; try reflexivity.
  rewrite (N.compare_antisym (ord x) (ord y)).
  destruct (ord x ?= ord y)%N; simpl; auto.
Qed.

Lemma str_compare_lt (a b : str) : str_compare a b = Lt <-> str_lt a b.
Proof.
  split.
  - revert b. induction a as [|x a IH]; intros [|y b]; simpl; try discriminate.
    + constructor.
    + destruct (ord x ?= ord y)%N eqn:E; try discriminate.
      * intros H. apply N.compare_eq in E. apply ord_inj in E. subst y.
        apply str_lt_tail. now apply IH.
      * intros _. apply str_lt_head. now apply N.compare_lt_iff.
  - induction 1; simpl.
    + reflexivity.
    + apply N.compare_lt_iff in H. now rewrite H.
    + now rewrite N.compare_refl.
Qed.

Lemma str_lt_trans (a b c : str) : str_lt a b -> str_lt b c -> str_lt a c.
Proof.
  intros H. revert c. induction H; intros c' H'; inversion H'; subst.
  - constructor.
  - constructor.
  - apply str_lt_head. lia.
  - now apply str_lt_head.
  - now apply str_lt_head.
  - apply str_lt_tail. now apply IHstr_lt.
Qed.

Lemma str_lt_irrefl (a : str) : ~ str_lt a a.
Proof.
  intros H. apply str_compare_lt in H.
  rewrite str_compare_refl in H. discriminate.
Qed.

(** ** The key order computed by [key_leb] is the order of the specification *)

Lemma key_leb_issue_le (x y : issue) :
  key_leb (sort_key x) (sort_key y) = true <-> issue_le x y.
Proof.
  destruct x as [[l1 m1] f1], y as [[l2 m2] f2].
  unfold issue_le, sort_key, issue_file, issue_line, issue_message, str_le.
  simpl.
  destruct (str_compare f1 f2) eqn:Ef.
  - apply str_compare_eq in Ef. subst f2.
    destruct (l1 ?= l2)%Z eqn:El.
    + apply Z.compare_eq in El. subst l2.
      destruct (str_compare m1 m2) eqn:Em.
      * apply str_compare_eq in Em. subst. intuition auto.
      * apply str_compare_lt in Em. intuition auto.
      * split; [discriminate|].
        intros [H | [_ [H | [_ [H | H]]]]].
        -- now apply str_lt_irrefl in H.
        -- lia.
        -- apply str_compare_lt in H. congruence.
        -- subst. rewrite str_compare_refl in Em. discriminate.
    + apply Z.compare_lt_iff in El. intuition auto.
    + apply Z.compare_gt_iff in El. split; [discriminate|].
      intros [H | [_ [H | [H _]]]].
      * now apply str_lt_irrefl in H.
      * lia.
      * lia.
  - apply str_compare_lt in Ef. intuition auto.
  - split; [discriminate|].
    intros [H | [H _]].
    + apply str_compare_lt in H. congruence.
    + subst. rewrite str_compare_refl in Ef. discriminate.
Qed.

Lemma issue_le_total (x y : issue) : issue_le x y \/ issue_le y x.
Proof.
  rewrite <- !key_leb_issue_le.
  destruct x as [[l1 m1] f1], y as [[l2 m2] f2].
  unfold key_leb, sort_key, issue_file, issue_line, issue_message. simpl.
  rewrite (str_compare_antisym f1 f2), (str_compare_antisym m1 m2),
    (Z.compare_antisym l1 l2).
  destruct (str_compare f1 f2), (l1 ?= l2)%Z, (str_compare m1 m2); simpl; auto.
Qed.

Lemma issue_le_trans (x y z : issue) :
  issue_le x y -> issue_le y z -> issue_le x z.
Proof.
  unfold issue_le, str_le.
  intros [H1 | [E1 H1]] [H2 | [E2 H2]].
  - left. eapply str_lt_trans; eauto.
  - left. now rewrite <- E2.
  - left. now rewrite E1.
  - right. split; [congruence|].
    destruct H1 as [H1 | [L1 H1]], H2 as [H2 | [L2 H2]].
    + left. lia.
    + left. lia.
    + left. lia.
    + right. split; [congruence|].
      destruct H1 as [H1 | H1], H2 as [H2 | H2].
      * left. eapply str_lt_trans; eauto.
      * left. now rewrite <- H2.
      * left. now rewrite H1.
      * right. congruence.
Qed.

Lemma issue_le_antisym (x y : issue) : issue_le x y -> issue_le y x -> x = y.
Proof.
  destruct x as [[l1 m1] f1], y as [[l2 m2] f2].
  unfold issue_le, str_le, issue_file, issue_line, issue_message. simpl.
  intros [H1 | [E1 H1]] [H2 | [E2 H2]].
  - exfalso. apply (@str_lt_irrefl f1). eapply str_lt_trans; eauto.
  - subst. now apply str_lt_irrefl in H1.
  - subst. now apply str_lt_irrefl in H2.
  - subst f2. destruct H1 as [H1 | [L1 H1]], H2 as [H2 | [L2 H2]]; try lia.
    subst l2. destruct H1 as [H1 | H1], H2 as [H2 | H2]; try congruence.
    exfalso. apply (@str_lt_irrefl m1). eapply str_lt_trans; eauto.
Qed.

(** ** The stable sort *)

Section SortedFacts.

Variables (A K : Type) (key : A -> K) (leb : K -> K -> bool).

Let le (x y : A) : Prop := leb (key x) (key y) = true.

Hypothesis le_total : forall x y, le x y \/ le y x.
Hypothesis le_trans : forall x y z, le x y -> le y z -> le x z.

Lemma insert_perm (x : A) (l : list A) :
  Permutation (insert key leb x l) (x :: l).
Proof.
  induction l as [|y l IH]; simpl; [reflexivity|].
  destruct (leb (key x) (key y)); [reflexivity|].
  rewrite IH. apply perm_swap.
Qed.

Lemma sorted_perm (l : list A) : Permutation (sorted key leb l) l.
Proof.
  induction l as [|x l IH]; simpl; [reflexivity|].
  rewrite insert_perm. now constructor.
Qed.

Lemma insert_sorted (x : A) (l : list A) :
  StronglySorted le l -> StronglySorted le (insert key leb x l).
Proof.
  induction 1 as [|y l Hs IH Hy]; simpl.
  - repeat constructor.
  - destruct (leb (key x) (key y)) eqn:E.
    + constructor; [now constructor|].
      constructor; [exact E|].
      eapply Forall_impl; [|exact Hy]. intros z Hz. eapply le_trans; eauto.
    + constructor; [exact IH|].
      eapply Permutation_Forall; [symmetry; apply insert_perm|].
      constructor; [|exact Hy].
      destruct (le_total x y) as [H | H]; [unfold le in H; congruence | exact H].
Qed.

Lemma sorted_sorted (l : list A) : StronglySorted le (sorted key leb l).
Proof.
  induction l as [|x l IH]; simpl; [constructor | now apply insert_sorted].
Qed.

End SortedFacts.

(** Two sorted lists with the same elements are equal, when the order is
    antisymmetric. *)
Lemma sorted_unique (A : Type) (le : A -> A -> Prop) :
  (forall x y, le x y -> le y x -> x = y) ->
  forall l1 l2 : list A,
    StronglySorted le l1 -> StronglySorted le l2 -> Permutation l1 l2 ->
    l1 = l2.
Proof.
  intros anti l1. induction l1 as [|x l1 IH]; intros l2 S1 S2 P.
  - apply Permutation_nil in P. now subst.
  - destruct l2 as [|y l2].
    + symmetry in P. now apply Permutation_nil in P.
    + inversion S1 as [|? ? S1' F1]; subst.
      inversion S2 as [|? ? S2' F2]; subst.
      assert (x = y) as ->.
      { assert (Hx : In x (y :: l2))
          by (eapply Permutation_in; [exact P | now left]).
        assert (Hy : In y (x :: l1))
          by (eapply Permutation_in; [symmetry; exact P | now left]).
        destruct Hx as [Hx | Hx]; [now subst|].
        destruct Hy as [Hy | Hy]; [now subst|].
        rewrite Forall_forall in F1, F2. apply anti; auto. }
      f_equal. apply IH; auto. eapply Permutation_cons_inv; eauto.
Qed.

Lemma StronglySorted_impl (A : Type) (R1 R2 : A -> A -> Prop) (l : list A) :
  (forall x y, R1 x y -> R2 x y) -> StronglySorted R1 l -> StronglySorted R2 l.
Proof.
  intros HR. induction 1 as [|x l Hs IH Hx]; constructor; auto.
  eapply Forall_impl; [|exact Hx]. auto.
Qed.

Lemma sorted_issues_sorted (issues : list issue) :
  StronglySorted issue_le (sorted_issues issues).
Proof.
  unfold sorted_issues.
  apply StronglySorted_impl
    with (R1 := fun x y => key_leb (sort_key x) (sort_key y) = true).
  { intros x y. apply key_leb_issue_le. }
  apply sorted_sorted.
  - intros x y. rewrite !key_leb_issue_le. apply issue_le_total.
  - intros x y z. rewrite !key_leb_issue_le. apply issue_le_trans.
Qed.

Lemma sorted_issues_perm (issues : list issue) :
  Permutation (sorted_issues issues) issues.
Proof. apply sorted_perm. Qed.

(** The sorted list depends on the issues collected, not on the order in
    which they were collected. *)
Lemma sorted_issues_order_independent (l1 l2 : list issue) :
  Permutation l1 l2 -> sorted_issues l1 = sorted_issues l2.
Proof.
  intros P. apply (sorted_unique issue_le_antisym).
  - apply sorted_issues_sorted.
  - apply sorted_issues_sorted.
  - rewrite !sorted_issues_perm. exact P.
Qed.

(** C2.  [print_issues] renders the issues it is given, all of them and no
    others, in ascending order of the key (file, line, message), strings
    being compared code point by code point.  Issues of one file on lines
    5, 3, 3 whose messages start with S002, S008, S001 come out as
    line 3 / S001, line 3 / S008, line 5 / S002. *)
Theorem print_issues_sorted_by_key (relpath : str -> str) (issues : list issue) :
  print_issues relpath issues = map (render relpath) (sorted_issues issues)
  /\ Permutation (sorted_issues issues) issues
  /\ StronglySorted issue_le (sorted_issues issues)
  /\ forall (file t1 t2 t3 : str),
       print_issues relpath
         [(5%Z, py "S002" ++ t1, file);
          (3%Z, py "S008" ++ t2, file);
          (3%Z, py "S001" ++ t3, file)]
       = [render relpath (3%Z, py "S001" ++ t3, file);
          render relpath (3%Z, py "S008" ++ t2, file);
          render relpath (5%Z, py "S002" ++ t1, file)].
Proof.
  split; [reflexivity|].
  split; [apply sorted_issues_perm|].
  split; [apply sorted_issues_sorted|].
  intros file t1 t2 t3.
  unfold print_issues, sorted_issues. cbn -[render].
  rewrite !str_compare_refl. cbn -[render].
  rewrite !str_compare_refl. reflexivity.
Qed.

(** ** Parse failures *)

Lemma analyze_file_parsed read_file ast_parse (file_path code : str)
    (tree : node) :
  read_file file_path = Return code ->
  ast_parse code = Return tree ->
  analyze_file read_file ast_parse file_path
  = Return (line_level_issues file_path code
            ++ check_function_defs tree file_path).
Proof.
  intros Hr Hp. unfold analyze_file, analyze_code_with_ast.
  rewrite Hr. simpl. rewrite Hp. reflexivity.
Qed.

(** The text [x = (;]: its only line ends in a semicolon, and its
    parenthesis is never closed. *)
Definition unclosed_paren : str := py "x = (;".

(** C1, as stated, fails: the line rules find an issue in a text the parser
    rejects, and [analyze_file] returns no issue list for it. *)
Lemma analyze_file_parse_failure_drops_line_issues :
  let read_file := fun _ : str => Return unclosed_paren in
  let ast_parse := fun _ : str => @Raise node SyntaxError in
  line_level_issues (py "a.py") unclosed_paren
  = [(1%Z, py "S003 Unnecessary semicolon", py "a.py")]
  /\ analyze_file read_file ast_parse (py "a.py") = Raise SyntaxError.
Proof. split; reflexivity. Qed.

(** C1, amended.  When the parser rejects the text of a file, [analyze_file]
    ends with the parser's exception: the line-level issues collected before
    the call are not returned. *)
Theorem analyze_file_parse_failure_raises read_file ast_parse
    (file_path code : str) (e : exn) :
  read_file file_path = Return code ->
  ast_parse code = Raise e ->
  analyze_file read_file ast_parse file_path = Raise e.
Proof.
  intros Hr Hp. unfold analyze_file, analyze_code_with_ast.
  rewrite Hr. simpl. rewrite Hp. reflexivity.
Qed.

Lemma analyze_file_parse_failure_raises_witness :
  analyze_file (fun _ => Return unclosed_paren)
    (fun _ => @Raise node SyntaxError) (py "a.py")
  = Raise SyntaxError.
Proof.
  apply (@analyze_file_parse_failure_raises
           (fun _ => Return unclosed_paren) (fun _ => @Raise node SyntaxError)
           (py "a.py") unclosed_paren SyntaxError);
    reflexivity.
Defined.

(** ** Determinism of the report *)

Lemma for_each_perm (A B : Type) (body : A -> result (list B))
    (l1 l2 : list A) :
  Permutation l1 l2 ->
  forall r1, for_each body l1 = Return r1 ->
  exists r2, for_each body l2 = Return r2 /\ Permutation r1 r2.
Proof.
  induction 1 as [| x l1 l2 P IH | x y l | l1 l2 l3 P1 IH1 P2 IH2];
    intros r1 H1.
  - exists r1. split; [exact H1 | reflexivity].
  - simpl in *. destruct (body x) as [ys|e]; simpl in *; [|discriminate].
    destruct (for_each body l1) as [zs|e]; simpl in *; [|discriminate].
    injection H1 as <-. destruct (IH zs eq_refl) as [r2 [E2 P2]].
    rewrite E2. simpl. exists (ys ++ r2). split; [reflexivity|].
    now apply Permutation_app_head.
  - simpl in *. destruct (body y) as [ys|e]; simpl in *; [|discriminate].
    destruct (body x) as [xs|e]; simpl in *; [|discriminate].
    destruct (for_each body l) as [zs|e]; simpl in *; [|discriminate].
    injection H1 as <-. exists (xs ++ ys ++ zs). split; [reflexivity|].
    rewrite !app_assoc. apply Permutation_app_tail. apply Permutation_app_comm.
  - destruct (IH1 r1 H1) as [r2 [E2 Q2]].
    destruct (IH2 r2 E2) as [r3 [E3 Q3]].
    exists r3. split; [exact E3 | now transitivity r2].
Qed.

(** C8.  The report is a function of the files and their contents.  Two runs
    over the same files, even when the directory walk lists them in a
    different order, print the same lines. *)
Theorem report_deterministic read_file ast_parse path_join isdir isfile relpath
    (os_walk1 os_walk2 : str -> list (str * list str * list str))
    (path : str) (report : list str) :
  Permutation (python_files os_walk1 path_join path)
    (python_files os_walk2 path_join path) ->
  main read_file ast_parse os_walk1 path_join isdir isfile relpath path
  = Return report ->
  main read_file ast_parse os_walk2 path_join isdir isfile relpath path
  = Return report.
Proof.
  intros P. unfold main. destruct (isdir path); [|auto].
  unfold analyze_directory.
  destruct (for_each _ (python_files os_walk1 path_join path)) as [r1|e] eqn:E1;
    simpl; [|discriminate].
  intros H. injection H as <-.
  destruct (for_each_perm _ P E1) as [r2 [E2 Q]].
  rewrite E2. simpl. unfold print_issues.
  now rewrite (sorted_issues_order_independent Q).
Qed.

Lemma report_deterministic_witness :
  main sample_read_file sample_parse sample_walk_again sample_join
    (fun _ => true) (fun _ => false) (fun path => path) (py "d")
  = Return
      [py "d/a.py: Line 1: S003 Unnecessary semicolon";
       py "d/b.py: Line 1: S007 Too many spaces after 'class'";
       py "d/b.py: Line 1: S008 Class name 'a' should use CamelCase"].
Proof.
  apply (@report_deterministic sample_read_file sample_parse sample_join
           (fun _ => true) (fun _ => false) (fun path => path)
           sample_walk sample_walk_again (py "d")).
  - unfold python_files, sample_walk, sample_walk_again. simpl.
    apply perm_swap.
  - reflexivity.
Defined.

(** ** The blank-run rule *)

Abbreviation len l := (Z.of_nat (length l)).

Lemma blank_lines_loop (lines : list str) (i c : Z) (acc : list Z) :
  fold_left blank_lines_step (enumerate i lines) (acc, c)
  = (acc ++ fires_from i c lines, count_after c lines).
Proof.
  revert i c acc. induction lines as [|l ls IH]; intros i c acc; simpl.
  - now rewrite app_nil_r.
  - fold (is_blank l). destruct (is_blank l).
    + apply IH.
    + rewrite IH. destruct (2 <? c)%Z.
      * rewrite <- app_assoc. simpl.
        now replace (i - c + c + 1)%Z with (i + 1)%Z by lia.
      * reflexivity.
Qed.

Lemma has_more_than_two_blank_lines_fires (lines : list str) :
  has_more_than_two_blank_lines lines = fires_from 0 0 lines.
Proof.
  unfold has_more_than_two_blank_lines. now rewrite blank_lines_loop.
Qed.

Lemma count_after_app (c : Z) (a b : list str) :
  count_after c (a ++ b) = count_after (count_after c a) b.
Proof.
  revert c. induction a as [|l a IH]; intros c; simpl; [reflexivity | apply IH].
Qed.

Lemma fires_from_app (i c : Z) (a b : list str) :
  fires_from i c (a ++ b)
  = fires_from i c a ++ fires_from (i + len a) (count_after c a) b.
Proof.
  revert i c. induction a as [|l a IH]; intros i c.
  - simpl. now rewrite Z.add_0_r.
  - cbn [app fires_from count_after length]. rewrite Nat2Z.inj_succ.
    replace (i + Z.succ (len a))%Z with (i + 1 + len a)%Z by lia.
    destruct (is_blank l).
    + apply IH.
    + rewrite IH, app_assoc. reflexivity.
Qed.

Lemma fires_from_blank (i c : Z) (run : list str) :
  Forall (fun l => is_blank l = true) run ->
  fires_from i c run = [] /\ count_after c run = (c + len run)%Z.
Proof.
  intros H. revert i c. induction H as [|l run Hl _ IH]; intros i c.
  - simpl. split; [reflexivity | lia].
  - cbn [fires_from count_after length]. rewrite Hl.
    destruct (IH (i + 1)%Z (c + 1)%Z) as [E1 E2]. split; [exact E1 | lia].
Qed.

Lemma fires_from_bounds (i c : Z) (lines : list str) (n : Z) :
  In n (fires_from i c lines) -> (i + 1 <= n <= i + len lines)%Z.
Proof.
  revert i c. induction lines as [|l ls IH]; intros i c; simpl; [tauto|].
  destruct (is_blank l).
  - intros H. apply IH in H. lia.
  - rewrite in_app_iff. intros [H | H].
    + destruct (2 <? c)%Z; simpl in H; [|tauto]. lia.
    + apply IH in H. lia.
Qed.

Lemma count_after_run_start (pre : list str) :
  run_starts_after pre -> count_after 0 pre = 0%Z.
Proof.
  intros [-> | [pre' [x [-> Hx]]]]; [reflexivity|].
  rewrite count_after_app. simpl. now rewrite Hx.
Qed.

Lemma count_occ_absent (l : list Z) (n : Z) :
  ~ In n l -> count_occ Z.eq_dec l n = 0.
Proof. apply count_occ_not_In. Qed.

Lemma fires_from_origin (i c : Z) (lines : list str) (n : Z) :
  In n (fires_from i c lines) ->
  (exists run l post,
      lines = run ++ l :: post
      /\ Forall (fun x => is_blank x = true) run /\ is_blank l = false
      /\ (2 < c + len run)%Z /\ n = (i + len run + 1)%Z)
  \/ (exists pre run l post,
        lines = pre ++ run ++ l :: post
        /\ (exists pre' x, pre = pre' ++ [x] /\ is_blank x = false)
        /\ Forall (fun x => is_blank x = true) run /\ is_blank l = false
        /\ (2 < len run)%Z /\ n = (i + len pre + len run + 1)%Z).
Proof.
  revert i c. induction lines as [|h t IH]; intros i c; simpl; [tauto|].
  destruct (is_blank h) eqn:Hh.
  - intros H. apply IH in H.
    destruct H as [(run & l & post & -> & Hr & Hl & Hc & ->)
                  | (pre & run & l & post & -> & (pre' & x & -> & Hx)
                     & Hr & Hl & Hc & ->)].
    + left. exists (h :: run), l, post.
      rewrite length_cons, Nat2Z.inj_succ.
      repeat split; auto; lia.
    + right. exists (h :: pre' ++ [x]), run, l, post.
      rewrite length_cons, Nat2Z.inj_succ.
      split; [reflexivity|].
      split; [now exists (h :: pre'), x|].
      repeat split; auto; lia.
  - rewrite in_app_iff. intros [H | H].
    + destruct (2 <? c)%Z eqn:Hc; simpl in H; [|tauto].
      destruct H as [<- | []]. apply Z.ltb_lt in Hc.
      left. exists [], h, t. simpl. repeat split; auto; lia.
    + apply IH in H. right.
      destruct H as [(run & l & post & -> & Hr & Hl & Hc & ->)
                    | (pre & run & l & post & -> & (pre' & x & -> & Hx)
                       & Hr & Hl & Hc & ->)].
      * exists [h], run, l, post.
        split; [reflexivity|].
        split; [now exists [], h|].
        simpl length. repeat split; auto; lia.
      * exists (h :: pre' ++ [x]), run, l, post.
        rewrite length_cons, Nat2Z.inj_succ.
        split; [reflexivity|].
        split; [now exists (h :: pre'), x|].
        repeat split; auto; lia.
Qed.

(** C3.  Take any blank run of the file that cannot be extended to the left
    and is followed by a line [l] that is not blank.  The rule reports the
    number of [l] exactly once when the run has more than two lines, and not
    at all otherwise (so not for a run of two).  Every line number the rule
    reports is the number of the line that follows such a run of more than
    two blank lines.  Blank lines at the end of the file add nothing. *)
Theorem blank_run_rule (lines : list str) :
  (forall pre run l post,
      lines = pre ++ run ++ l :: post ->
      run_starts_after pre ->
      Forall (fun x => is_blank x = true) run ->
      is_blank l = false ->
      count_occ Z.eq_dec (has_more_than_two_blank_lines lines)
        (len pre + len run + 1)%Z
      = if 2 <? length run then 1 else 0)
  /\ (forall n,
         In n (has_more_than_two_blank_lines lines) ->
         exists pre run l post,
           lines = pre ++ run ++ l :: post
           /\ run_starts_after pre
           /\ Forall (fun x => is_blank x = true) run
           /\ is_blank l = false
           /\ 2 < length run
           /\ n = (len pre + len run + 1)%Z)
  /\ (forall blanks,
         Forall (fun x => is_blank x = true) blanks ->
         has_more_than_two_blank_lines (lines ++ blanks)
         = has_more_than_two_blank_lines lines).
Proof.
  rewrite has_more_than_two_blank_lines_fires. repeat split.
  - intros pre run l post -> Hpre Hrun Hl.
    rewrite fires_from_app, (count_after_run_start Hpre), fires_from_app.
    destruct (fires_from_blank (0 + len pre) 0 Hrun) as [-> ->].
    cbn [fires_from app]. rewrite Hl.
    rewrite !count_occ_app.
    rewrite (@count_occ_absent (fires_from 0 0 pre)).
    2:{ intros H. apply fires_from_bounds in H. lia. }
    rewrite (@count_occ_absent (fires_from _ 0 post)).
    2:{ intros H. apply fires_from_bounds in H. lia. }
    destruct (2 <? length run) eqn:E.
    + apply Nat.ltb_lt in E.
      replace (2 <? 0 + len run)%Z with true
        by (symmetry; apply Z.ltb_lt; lia).
      simpl. destruct (Z.eq_dec _ _) as [_|N]; [reflexivity|]. exfalso. lia.
    + apply Nat.ltb_ge in E.
      replace (2 <? 0 + len run)%Z with false
        by (symmetry; apply Z.ltb_ge; lia).
      reflexivity.
  - intros n H. apply fires_from_origin in H.
    destruct H as [(run & l & post & -> & Hr & Hl & Hc & ->)
                  | (pre & run & l & post & -> & Hp & Hr & Hl & Hc & ->)].
    + exists [], run, l, post. simpl. repeat split; auto; try lia. now left.
    + exists pre, run, l, post. repeat split; auto; try lia. now right.
  - intros blanks Hb. rewrite has_more_than_two_blank_lines_fires.
    rewrite fires_from_app.
    destruct (fires_from_blank (0 + len lines) (count_after 0 lines) Hb)
      as [-> _].
    apply app_nil_r.
Qed.

Lemma blank_run_rule_witness :
  count_occ Z.eq_dec
    (has_more_than_two_blank_lines [py "a"; []; []; []; py "b"; []; []]) 5%Z
  = 1.
Proof.
  apply (proj1 (blank_run_rule [py "a"; []; []; []; py "b"; []; []])
           [py "a"] [[]; []; []] (py "b") [[]; []]).
  - reflexivity.
  - right. exists [], (py "a"). split; reflexivity.
  - repeat constructor.
  - reflexivity.
Defined.

(** ** Trees: sizes, [walk] and the nodes of a tree *)

Lemma sum_by_app (A : Type) (f : A -> nat) (l1 l2 : list A) :
  sum_by f (l1 ++ l2) = sum_by f l1 + sum_by f l2.
Proof. unfold sum_by. now rewrite map_app, list_sum_app. Qed.

Lemma sum_by_map (A B : Type) (f : B -> nat) (g : A -> B) (l : list A) :
  sum_by f (map g l) = sum_by (fun x => f (g x)) l.
Proof. unfold sum_by. now rewrite map_map. Qed.

Lemma sum_by_of_option (A : Type) (f : A -> nat) (o : option A) :
  sum_by f (of_option o) = opt_by f o.
Proof. destruct o; simpl; unfold sum_by; simpl; lia. Qed.

Lemma sum_by_present (A : Type) (f : A -> nat) (l : list (option A)) :
  sum_by f (present l) = sum_by (opt_by f) l.
Proof.
  induction l as [|o l IH]; [reflexivity|].
  unfold present in *. cbn [flat_map]. rewrite sum_by_app, IH, sum_by_of_option.
  reflexivity.
Qed.

Lemma sum_by_cons (A : Type) (f : A -> nat) (x : A) (l : list A) :
  sum_by f (x :: l) = f x + sum_by f l.
Proof. reflexivity. Qed.

Lemma flat_map_ext_in (A B : Type) (f g : A -> list B) (l : list A) :
  (forall x, In x l -> f x = g x) -> flat_map f l = flat_map g l.
Proof.
  induction l as [|x l IH]; intros H; simpl; [reflexivity|].
  rewrite (H x) by now left. rewrite IH; [reflexivity|].
  intros y Hy. apply H. now right.
Qed.

Lemma sum_by_nil (A : Type) (f : A -> nat) : sum_by f [] = 0.
Proof. reflexivity. Qed.

Lemma size_children (n : node) :
  size n = S (sum_by size (iter_child_nodes n)).
Proof.
  destruct n as [body | l nm a body dl ret | l nm a body dl ret | l ts v | id
                | elts | ks vs | elts | f xs kws | l fs | a | a];
    try match type of a with
        | arguments => destruct a as [po ar va ko kd kw de]
        | arg => destruct a as [l nm an]
        end;
    cbn [size size_arguments size_arg iter_child_nodes];
    rewrite ?sum_by_cons, ?sum_by_app, ?sum_by_map, ?sum_by_present,
      ?sum_by_of_option, ?sum_by_cons;
    cbn [size size_arguments size_arg]; rewrite ?sum_by_nil; lia.
Qed.

Lemma sum_by_In (A : Type) (f : A -> nat) (x : A) (l : list A) :
  In x l -> f x <= sum_by f l.
Proof.
  induction l as [|y l IH]; [easy|].
  rewrite sum_by_cons. intros [-> | H]; [lia | apply IH in H; lia].
Qed.

Lemma size_child (n c : node) : In c (iter_child_nodes n) -> size c < size n.
Proof.
  intros H. rewrite (size_children n). apply (sum_by_In size) in H. lia.
Qed.

Lemma size_pos (n : node) : 0 < size n.
Proof. rewrite size_children. lia. Qed.

Lemma subtree_upto_enough (fuel1 fuel2 : nat) (n : node) :
  size n <= fuel1 -> size n <= fuel2 ->
  subtree_upto fuel1 n = subtree_upto fuel2 n.
Proof.
  revert fuel2 n. induction fuel1 as [|k IH]; intros fuel2 n H1 H2.
  - pose proof (size_pos n). lia.
  - destruct fuel2 as [|k2]; [pose proof (size_pos n); lia|].
    simpl. unfold subtree_step. f_equal.
    apply flat_map_ext_in. intros c Hc. apply size_child in Hc.
    apply IH; lia.
Qed.

Lemma subtree_children (n : node) :
  subtree n = n :: flat_map subtree (iter_child_nodes n).
Proof.
  unfold subtree at 1. rewrite (size_children n). simpl. unfold subtree_step.
  f_equal. apply flat_map_ext_in. intros c Hc. unfold subtree.
  pose proof (sum_by_In size _ _ Hc). apply subtree_upto_enough; lia.
Qed.

Lemma walk_queue_subtrees (fuel : nat) (todo : list node) :
  sum_by size todo <= fuel ->
  Permutation (walk_queue fuel todo) (flat_map subtree todo).
Proof.
  revert todo. induction fuel as [|k IH]; intros todo H.
  - destruct todo as [|n todo]; [reflexivity|].
    rewrite sum_by_cons in H. pose proof (size_pos n). lia.
  - destruct todo as [|n todo]; [reflexivity|].
    cbn [walk_queue flat_map]. rewrite subtree_children.
    rewrite sum_by_cons, (size_children n) in H.
    rewrite IH by (rewrite sum_by_app; lia).
    rewrite flat_map_app. cbn [app]. constructor.
    apply Permutation_app_comm.
Qed.

(** [walk] visits every node of the tree once. *)
Lemma walk_subtree (n : node) : Permutation (walk n) (subtree n).
Proof.
  unfold walk. rewrite walk_queue_subtrees.
  - simpl. now rewrite app_nil_r.
  - unfold sum_by. simpl. lia.
Qed.

Lemma subtree_within (n d : node) : In d (subtree n) <-> within d n.
Proof.
  split.
  - remember (size n) as k eqn:Hk. revert n Hk d.
    induction k as [k IH] using lt_wf_ind. intros n Hk d.
    rewrite subtree_children. intros [<- | H]; [constructor|].
    apply in_flat_map in H. destruct H as [c [Hc Hd]].
    apply within_child with c; [exact Hc|].
    apply (IH (size c)); auto. subst k. now apply size_child.
  - induction 1 as [n | n c d Hc _ IH]; rewrite subtree_children.
    + now left.
    + right. apply in_flat_map. now exists c.
Qed.

Lemma walk_within (n d : node) : In d (walk n) <-> within d n.
Proof.
  rewrite <- subtree_within. split; apply Permutation_in.
  - apply walk_subtree.
  - symmetry. apply walk_subtree.
Qed.

(** ** Tree rules *)

Lemma str_eqb_eq (a b : str) : str_eqb a b = true <-> a = b.
Proof.
  revert b. induction a as [|x a IH]; intros [|y b]; simpl;
    try (split; [discriminate | discriminate]); [tauto|].
  rewrite andb_true_iff, Ascii.eqb_eq, IH.
  split; [intros [-> ->]; reflexivity | intros H; injection H; auto].
Qed.

Lemma check_function_args_code (n : node) (fp : str) (x : issue) :
  In x (check_function_args n fp) -> issue_code x = py "S010".
Proof.
  destruct n; simpl; try tauto. intros H. apply in_flat_map in H.
  destruct H as [y [_ H]]. destruct (negb _); [|easy].
  destruct H as [<- | []]. reflexivity.
Qed.

Lemma check_assign_targets_code (n : node) (fp : str) (x : issue) :
  In x (check_assign_targets n fp) -> issue_code x = py "S011".
Proof.
  destruct n; simpl; try tauto. intros H. apply in_flat_map in H.
  destruct H as [y [_ H]]. destruct y; try easy. destruct (negb _); [|easy].
  destruct H as [<- | []]. reflexivity.
Qed.

Lemma check_function_body_for_variables_code (n : node) (fp : str) (x : issue) :
  In x (check_function_body_for_variables n fp) -> issue_code x = py "S011".
Proof.
  unfold check_function_body_for_variables. intros H. apply in_flat_map in H.
  destruct H as [m [_ H]]. eapply check_assign_targets_code; eauto.
Qed.

Lemma check_mutable_default_arguments_code (n : node) (fp : str) (x : issue) :
  In x (check_mutable_default_arguments n fp) -> issue_code x = py "S012".
Proof.
  destruct n; simpl; try tauto. intros H. apply in_flat_map in H.
  destruct H as [y [_ H]]. destruct y; try easy; destruct H as [<- | []];
    reflexivity.
Qed.

(** The issues of one function declaration, rule by rule. *)
Lemma check_function_def_cases (n : node) (fp : str) (x : issue) :
  In x (check_function_def n fp) ->
  is_function_def n = true
  /\ (issue_code x = py "S009"
      \/ In x (check_function_args n fp)
      \/ In x (check_function_body_for_variables n fp)
      \/ In x (check_mutable_default_arguments n fp)).
Proof.
  destruct n; try (simpl; tauto). unfold check_function_def.
  rewrite !in_app_iff. intros [H | H]; split; try reflexivity; auto.
  left. destruct (negb (_ && _)); [|easy]. destruct (negb _); [|easy].
  destruct H as [<- | []]. reflexivity.
Qed.

Lemma check_mutable_default_arguments_spec (l : Z) (nm : str) (a : arguments)
    (body dl : list node) (ret : option node) (fp : str) :
  check_mutable_default_arguments (FunctionDef l nm a body dl ret) fp
  = map (fun _ => (l, py "S012 Default argument value is mutable", fp))
      (filter is_mutable_literal (arguments_defaults a)).
Proof.
  simpl. induction (arguments_defaults a) as [|d ds IH]; [reflexivity|].
  simpl. rewrite IH. destruct d; reflexivity.
Qed.

(** C5, as stated, fails: the list literal is the default of the
    keyword-only parameter [a], and no rule fires. *)
Lemma kwonly_mutable_default_not_reported :
  check_function_defs kwonly_mutable_default (py "a.py") = [].
Proof. reflexivity. Qed.

(** C5, amended.  S012 fires for the defaults in [args.defaults] (those of
    the parameters that can be passed by position) of the [FunctionDef] nodes
    of the tree: once, at the line of the function, for each of them that is
    a list, mapping or set literal, and for no other default. *)
Theorem mutable_default_rule (tree : node) (fp : str) :
  (forall x,
      In x (check_function_defs tree fp) /\ issue_code x = py "S012" <->
      exists l nm a body dl ret default,
        within (FunctionDef l nm a body dl ret) tree
        /\ In default (arguments_defaults a)
        /\ is_mutable_literal default = true
        /\ x = (l, py "S012 Default argument value is mutable", fp))
  /\ (forall l nm a body dl ret,
         check_mutable_default_arguments (FunctionDef l nm a body dl ret) fp
         = map (fun _ => (l, py "S012 Default argument value is mutable", fp))
             (filter is_mutable_literal (arguments_defaults a))).
Proof.
  split; [|intros; apply check_mutable_default_arguments_spec].
  intros x. split.
  - intros [H Hc]. unfold check_function_defs in H. apply in_flat_map in H.
    destruct H as [n [Hn H]]. apply walk_within in Hn.
    apply check_function_def_cases in H. destruct H as [Hf H].
    destruct H as [H | [H | [H | H]]].
    + rewrite H in Hc. discriminate.
    + apply check_function_args_code in H. rewrite H in Hc. discriminate.
    + apply check_function_body_for_variables_code in H.
      rewrite H in Hc. discriminate.
    + destruct n as [| l nm a body dl ret | | | | | | | | | |];
        try discriminate.
      rewrite check_mutable_default_arguments_spec in H.
      apply in_map_iff in H. destruct H as [d [<- Hd]].
      apply filter_In in Hd. destruct Hd as [Hd Hm].
      exists l, nm, a, body, dl, ret, d. auto.
  - intros (l & nm & a & body & dl & ret & d & Hw & Hd & Hm & ->).
    split; [|reflexivity].
    unfold check_function_defs. apply in_flat_map.
    exists (FunctionDef l nm a body dl ret). split; [now apply walk_within|].
    unfold check_function_def. rewrite !in_app_iff. right. right. right.
    rewrite check_mutable_default_arguments_spec. apply in_map_iff.
    exists d. split; [reflexivity|]. apply filter_In. auto.
Qed.

Lemma mutable_default_rule_witness :
  In (1%Z, py "S012 Default argument value is mutable", py "a.py")
    (check_function_defs positional_mutable_default (py "a.py"))
  /\ issue_code (1%Z, py "S012 Default argument value is mutable", py "a.py")
     = py "S012".
Proof.
  apply (proj1 (mutable_default_rule positional_mutable_default (py "a.py"))).
  exists 1%Z, (py "f"),
    (mk_arguments [] [mk_arg 1 (py "a") None] None [] [] None [List_ []]),
    [Other 1 []], [], None, (List_ []).
  split; [|split; [|split]].
  - eapply within_child; [|apply within_here]. now left.
  - now left.
  - reflexivity.
  - reflexivity.
Defined.

(** C6, as stated, fails: the function holds no assignment with a single
    target, and S011 fires for the second target of the chained one. *)
Lemma chained_assignment_reported :
  check_function_defs chained_assignment (py "a.py")
  = [(2%Z, py "S011 Variable 'B' in function should be snake_case", py "a.py")]
  /\ forallb (fun n => negb (is_simple_assignment n))
       (subtree chained_assignment) = true.
Proof. split; reflexivity. Qed.

(** C6, amended.  S011 fires for the [Assign] statements below a
    [FunctionDef] node of the tree (in its body, in nested blocks, in nested
    function bodies), for each target that is a plain name, whether the
    statement has one target or several, exactly when the name fails the
    snake_case classifier; it fires for nothing else. *)
Theorem variable_naming_rule (tree : node) (fp : str) (x : issue) :
  In x (check_function_defs tree fp) /\ issue_code x = py "S011" <->
  exists l nm a body dl ret lineno targets value id,
    within (FunctionDef l nm a body dl ret) tree
    /\ within (Assign lineno targets value) (FunctionDef l nm a body dl ret)
    /\ In (Name id) targets
    /\ is_snake_case id = false
    /\ x = (lineno,
            py "S011 Variable '" ++ id
              ++ py "' in function should be snake_case",
            fp).
Proof.
  split.
  - intros [H Hc]. unfold check_function_defs in H. apply in_flat_map in H.
    destruct H as [n [Hn H]]. apply walk_within in Hn.
    apply check_function_def_cases in H. destruct H as [Hf H].
    destruct H as [H | [H | [H | H]]].
    + rewrite H in Hc. discriminate.
    + apply check_function_args_code in H. rewrite H in Hc. discriminate.
    + destruct n as [| l nm a body dl ret | | | | | | | | | |];
        try discriminate.
      unfold check_function_body_for_variables in H. apply in_flat_map in H.
      destruct H as [m [Hm H]]. apply walk_within in Hm.
      destruct m as [| | | lineno targets value | | | | | | | |];
        try (simpl in H; tauto).
      simpl in H. apply in_flat_map in H. destruct H as [t [Ht H]].
      destruct t as [| | | | id | | | | | | |]; try (simpl in H; tauto).
      destruct (is_snake_case id) eqn:Es; simpl in H; [tauto|].
      destruct H as [<- | []].
      exists l, nm, a, body, dl, ret, lineno, targets, value, id. auto.
    + apply check_mutable_default_arguments_code in H.
      rewrite H in Hc. discriminate.
  - intros (l & nm & a & body & dl & ret & lineno & targets & value & id
            & Hw & Ha & Ht & Hs & ->).
    split; [|reflexivity].
    unfold check_function_defs. apply in_flat_map.
    exists (FunctionDef l nm a body dl ret). split; [now apply walk_within|].
    unfold check_function_def. rewrite !in_app_iff. right. right. left.
    unfold check_function_body_for_variables. apply in_flat_map.
    exists (Assign lineno targets value). split; [now apply walk_within|].
    simpl. apply in_flat_map. exists (Name id). split; [exact Ht|].
    rewrite Hs. now left.
Qed.

Lemma variable_naming_rule_witness :
  In (2%Z, py "S011 Variable 'Bad' in function should be snake_case",
      py "a.py")
    (check_function_defs simple_assignment (py "a.py"))
  /\ issue_code
       (2%Z, py "S011 Variable 'Bad' in function should be snake_case",
        py "a.py")
     = py "S011".
Proof.
  apply (proj2 (variable_naming_rule simple_assignment (py "a.py") _)).
  exists 1%Z, (py "f"), no_arguments,
    [Assign 2 [Name (py "Bad")] (Other 2 [])], [], None,
    2%Z, [Name (py "Bad")], (Other 2 []), (py "Bad").
  split; [|split; [|split; [|split]]].
  - eapply within_child; [|apply within_here]. now left.
  - eapply within_child; [|apply within_here]. right. now left.
  - now left.
  - reflexivity.
  - reflexivity.
Defined.

(** ** Nested functions *)

Section ListFacts.

Variables A B C : Type.

Lemma flat_map_flat_map (f : A -> list B) (g : B -> list C) (l : list A) :
  flat_map g (flat_map f l) = flat_map (fun x => flat_map g (f x)) l.
Proof.
  induction l as [|x l IH]; [reflexivity|].
  simpl. now rewrite flat_map_app, IH.
Qed.

Lemma filter_flat_map (p : B -> bool) (f : A -> list B) (l : list A) :
  filter p (flat_map f l) = flat_map (fun x => filter p (f x)) l.
Proof.
  induction l as [|x l IH]; [reflexivity|].
  simpl. now rewrite filter_app, IH.
Qed.

Lemma filter_all (p : B -> bool) (l : list B) :
  (forall x, In x l -> p x = true) -> filter p l = l.
Proof.
  induction l as [|x l IH]; intros H; [reflexivity|].
  simpl. rewrite (H x) by now left. f_equal. apply IH.
  intros y Hy. apply H. now right.
Qed.

Lemma filter_none (p : B -> bool) (l : list B) :
  (forall x, In x l -> p x = false) -> filter p l = [].
Proof.
  induction l as [|x l IH]; intros H; [reflexivity|].
  simpl. rewrite (H x) by now left. apply IH.
  intros y Hy. apply H. now right.
Qed.

Lemma flat_map_perm_pointwise (f g : A -> list B) (l : list A) :
  (forall x, In x l -> Permutation (f x) (g x)) ->
  Permutation (flat_map f l) (flat_map g l).
Proof.
  induction l as [|x l IH]; intros H; [reflexivity|].
  simpl. apply Permutation_app; [apply H; now left|].
  apply IH. intros y Hy. apply H. now right.
Qed.

Lemma flat_map_app_perm (f g : A -> list B) (l : list A) :
  Permutation (flat_map (fun x => f x ++ g x) l) (flat_map f l ++ flat_map g l).
Proof.
  induction l as [|x l IH]; [reflexivity|].
  simpl. rewrite IH, <- !app_assoc. apply Permutation_app_head.
  rewrite !app_assoc. apply Permutation_app_tail. apply Permutation_app_comm.
Qed.

Lemma copies_app (k : nat) (l1 l2 : list B) :
  Permutation (copies k (l1 ++ l2)) (copies k l1 ++ copies k l2).
Proof.
  unfold copies. induction k as [|k IH]; [reflexivity|].
  simpl. rewrite IH, <- !app_assoc. apply Permutation_app_head.
  rewrite !app_assoc. apply Permutation_app_tail. apply Permutation_app_comm.
Qed.

Lemma copies_flat_map (k : nat) (f : A -> list B) (l : list A) :
  Permutation (flat_map (fun x => copies k (f x)) l) (copies k (flat_map f l)).
Proof.
  induction l as [|x l IH].
  - unfold copies. simpl. induction k; [reflexivity | assumption].
  - simpl. rewrite IH. symmetry. apply copies_app.
Qed.

End ListFacts.

Lemma nesting_nodes (fuel depth : nat) (n : node) :
  map snd (nesting_upto fuel depth n) = subtree_upto fuel n.
Proof.
  revert depth n. induction fuel as [|k IH]; intros depth n; [reflexivity|].
  simpl. unfold subtree_step. f_equal.
  induction (iter_child_nodes n) as [|c cs IHc]; [reflexivity|].
  simpl. now rewrite map_app, IH, IHc.
Qed.

(** [nesting] pairs every node with the number of function declarations
    around it. *)
Lemma nesting_upto_depth (fuel depth : nat) (n m : node) (k : nat) :
  size n <= fuel ->
  In (k, m) (nesting_upto fuel depth n)
  <-> exists j, depth_of n m j /\ k = depth + j.
Proof.
  revert depth n k. induction fuel as [|f IH]; intros depth n k H.
  - pose proof (size_pos n). lia.
  - cbn [nesting_upto]. split.
    + intros [E | Hin].
      * injection E as <- <-.
        exists (if is_function_def n then 1 else 0).
        split; [constructor | destruct (is_function_def n); lia].
      * apply in_flat_map in Hin. destruct Hin as [c [Hc Hin]].
        apply IH in Hin; [|apply size_child in Hc; lia].
        destruct Hin as [j [Hj ->]].
        exists ((if is_function_def n then 1 else 0) + j).
        split; [now apply depth_child with c|].
        destruct (is_function_def n); lia.
    + intros [j [Hj ->]]. inversion Hj as [? | ? c ? j' Hc Hj']; subst.
      * left. destruct (is_function_def m); f_equal; lia.
      * right. apply in_flat_map. exists c. split; [exact Hc|].
        apply IH; [apply size_child in Hc; lia|].
        exists j'. split; [exact Hj'|]. destruct (is_function_def n); lia.
Qed.

Lemma nesting_depth (n m : node) (k : nat) :
  In (k, m) (nesting n) <-> depth_of n m k.
Proof.
  unfold nesting. rewrite nesting_upto_depth by lia.
  split; [intros [j [Hj ->]]; exact Hj | intros H; now exists k].
Qed.

(** The issues of rule S011 among those of one node of the walk. *)
Lemma check_function_def_S011 (n : node) (fp : str) :
  filter (has_code (py "S011")) (check_function_def n fp)
  = if is_function_def n then check_function_body_for_variables n fp else [].
Proof.
  destruct n as [| l nm a body dl ret | | | | | | | | | |]; try reflexivity.
  unfold check_function_def. cbn [is_function_def].
  rewrite !filter_app.
  rewrite (@filter_none _ _ (if negb (_ && _) then _ else _)).
  2:{ intros x H. destruct (negb (_ && _)); [|easy].
      destruct (negb _); [|easy]. destruct H as [<- | []]. reflexivity. }
  rewrite (@filter_none _ _ (check_function_args _ _)).
  2:{ intros x H. apply check_function_args_code in H.
      unfold has_code. now rewrite H. }
  rewrite (@filter_none _ _ (check_mutable_default_arguments _ _)).
  2:{ intros x H. apply check_mutable_default_arguments_code in H.
      unfold has_code. now rewrite H. }
  rewrite filter_all.
  2:{ intros x H. apply check_function_body_for_variables_code in H.
      unfold has_code. now rewrite H. }
  simpl. apply app_nil_r.
Qed.

Section Nesting.

Variable fp : str.

Lemma assigned_children (n : node) :
  assigned fp n
  = check_assign_targets n fp ++ flat_map (assigned fp) (iter_child_nodes n).
Proof.
  unfold assigned. rewrite subtree_children. simpl.
  now rewrite flat_map_flat_map.
Qed.

Lemma reported_children (n : node) :
  reported fp n
  = (if is_function_def n then assigned fp n else [])
    ++ flat_map (reported fp) (iter_child_nodes n).
Proof.
  unfold reported. rewrite subtree_children. simpl.
  now rewrite flat_map_flat_map.
Qed.

Lemma nesting_upto_reported (fuel depth : nat) (n : node) :
  size n <= fuel ->
  Permutation (flat_map (by_depth fp) (nesting_upto fuel depth n))
    (reported fp n ++ copies depth (assigned fp n)).
Proof.
  revert depth n. induction fuel as [|k IH]; intros depth n H.
  - pose proof (size_pos n). lia.
  - cbn [nesting_upto flat_map]. rewrite flat_map_flat_map.
    set (depth' := if is_function_def n then S depth else depth).
    rewrite (@flat_map_perm_pointwise _ _
               (fun c => flat_map (by_depth fp) (nesting_upto k depth' c))
               (fun c => reported fp c ++ copies depth' (assigned fp c))).
    2:{ intros c Hc. apply IH. apply size_child in Hc. lia. }
    rewrite flat_map_app_perm, copies_flat_map.
    rewrite reported_children.
    unfold by_depth at 1. cbn [fst snd].
    rewrite Permutation_app_swap_app, <- copies_app, <- assigned_children.
    rewrite <- app_assoc. rewrite Permutation_app_swap_app.
    apply Permutation_app_head.
    subst depth'. destruct (is_function_def n); reflexivity.
Qed.

Lemma check_function_defs_reported (tree : node) :
  Permutation (filter (has_code (py "S011")) (check_function_defs tree fp))
    (reported fp tree).
Proof.
  unfold check_function_defs, reported. rewrite filter_flat_map.
  rewrite (Permutation_flat_map _ (walk_subtree tree)).
  apply flat_map_perm_pointwise. intros n _.
  rewrite check_function_def_S011. destruct (is_function_def n); [|reflexivity].
  unfold check_function_body_for_variables, assigned.
  apply Permutation_flat_map, walk_subtree.
Qed.

(** The S011 issues of a tree are what the walk of
    [check_function_body_for_variables] finds at each node, repeated as many
    times as the node has [FunctionDef] nodes around it.  ([nesting] lists
    every node once, with that number: [nesting_nodes], [nesting_depth].) *)
Lemma check_function_defs_by_depth (tree : node) :
  Permutation (filter (has_code (py "S011")) (check_function_defs tree fp))
    (flat_map
       (fun item => copies (fst item) (check_assign_targets (snd item) fp))
       (nesting tree)).
Proof.
  rewrite check_function_defs_reported. unfold nesting.
  transitivity (reported fp tree ++ copies 0 (assigned fp tree)).
  - unfold copies. simpl. now rewrite app_nil_r.
  - symmetry. apply (@nesting_upto_reported (size tree) 0 tree). lia.
Qed.

End Nesting.

Example nested_functions_reported_twice :
  check_function_defs nested_functions (py "a.py")
  = [(3%Z, py "S011 Variable 'Bad' in function should be snake_case",
      py "a.py");
     (3%Z, py "S011 Variable 'Bad' in function should be snake_case",
      py "a.py")]
  /\ map fst (filter (fun item => is_simple_assignment (snd item))
                (nesting nested_functions)) = [2].
Proof. split; reflexivity. Qed.

(** ** The matcher and the language of a pattern *)

Lemma step_sound (p : ascii -> bool) (st st' : cursor) :
  In st' (step p st) ->
  exists c, p c = true /\ rest st = c :: rest st'.
Proof.
  unfold step. destruct (rest st) as [|c t]; [easy|].
  destruct (p c) eqn:E; [|easy]. intros [<- | []]. now exists c.
Qed.

Lemma iterate_sound (r : regex) (f : cursor -> list cursor) :
  (forall st st', In st' (f st) ->
                  exists w, rest st = w ++ rest st' /\ lang r w) ->
  forall fuel st st',
    In st' (iterate f fuel st) ->
    exists w, rest st = w ++ rest st' /\ lang (Star r) w.
Proof.
  intros Hf. induction fuel as [|k IH]; intros st st'; simpl.
  - intros [<- | []]. exists []. split; [reflexivity | constructor].
  - rewrite in_app_iff. intros [H | [<- | []]].
    + apply in_flat_map in H. destruct H as [st1 [H1 H2]].
      apply filter_In in H1. destruct H1 as [H1 Hlt].
      apply Nat.ltb_lt in Hlt.
      destruct (Hf _ _ H1) as [w1 [E1 L1]].
      destruct (IH _ _ H2) as [w2 [E2 L2]].
      exists (w1 ++ w2). split.
      * now rewrite E1, E2, app_assoc.
      * apply LStarApp; auto. intros ->. simpl in E1. rewrite E1 in Hlt. lia.
    + exists []. split; [reflexivity | constructor].
Qed.

(** Soundness: the matcher consumes a word of the language. *)
Lemma run_sound (r : regex) (st st' : cursor) :
  In st' (run r st) -> exists w, rest st = w ++ rest st' /\ lang r w.
Proof.
  revert st st'. induction r as [| c | p | | | | r1 IH1 r2 IH2 | r IH | r IH | r IH];
    intros st st'; cbn [run].
  - intros [<- | []]. exists []. split; [reflexivity | constructor].
  - intros H. apply step_sound in H. destruct H as [x [Hx E]].
    apply Ascii.eqb_eq in Hx. subst x. exists [c]. split; [exact E | constructor].
  - intros H. apply step_sound in H. destruct H as [x [Hx E]].
    exists [x]. split; [exact E | now constructor].
  - destruct (before st); [easy|]. intros [<- | []].
    exists []. split; [reflexivity | constructor].
  - destruct (at_end (rest st)); [|easy]. intros [<- | []].
    exists []. split; [reflexivity | constructor].
  - destruct (xorb _ _); [|easy]. intros [<- | []].
    exists []. split; [reflexivity | constructor].
  - intros H. apply in_flat_map in H. destruct H as [st1 [H1 H2]].
    destruct (IH1 _ _ H1) as [w1 [E1 L1]].
    destruct (IH2 _ _ H2) as [w2 [E2 L2]].
    exists (w1 ++ w2). split; [now rewrite E1, E2, app_assoc | now constructor].
  - rewrite in_app_iff. intros [H | [<- | []]].
    + destruct (IH _ _ H) as [w [E L]]. exists w.
      split; [exact E | now apply LOptSome].
    + exists []. split; [reflexivity | apply LOptNone].
  - apply iterate_sound. exact IH.
  - intros H. apply in_map_iff in H. destruct H as [st1 [<- H1]].
    destruct (IH _ _ H1) as [w [E L]]. exists w.
    split; [exact E | now constructor].
Qed.

Lemma iterate_enough (f : cursor -> list cursor) (fuel1 fuel2 : nat)
    (st : cursor) :
  length (rest st) <= fuel1 -> length (rest st) <= fuel2 ->
  iterate f fuel1 st = iterate f fuel2 st.
Proof.
  revert fuel2 st. induction fuel1 as [|k IH]; intros fuel2 st H1 H2.
  - destruct fuel2 as [|k2]; [reflexivity|]. simpl.
    rewrite filter_none; [reflexivity|].
    intros x _. apply Nat.ltb_ge. lia.
  - destruct fuel2 as [|k2]; simpl.
    + rewrite filter_none; [reflexivity|].
      intros x _. apply Nat.ltb_ge. lia.
    + f_equal. apply flat_map_ext_in. intros st1 H.
      apply filter_In in H. destruct H as [_ H]. apply Nat.ltb_lt in H.
      apply IH; lia.
Qed.

(** Completeness, for patterns without assertions: the matcher finds every
    word of the language at the cursor. *)
Lemma run_complete (r : regex) (w : str) :
  lang r w -> plain r = true ->
  forall st t, rest st = w ++ t ->
               exists st', In st' (run r st) /\ rest st' = t.
Proof.
  induction 1 as [| c | p c Hp | | | | r1 r2 w1 w2 L1 IH1 L2 IH2
                 | r w L IH | r | r | r w1 w2 Hne L1 IH1 L2 IH2 | r w L IH];
    cbn [plain]; intros Hplain st t E; try discriminate.
  - exists st. split; [now left | exact E].
  - exists (Cursor (Some c) t (captured st)). split; [|reflexivity].
    cbn [run]. unfold step. rewrite E. simpl. rewrite Ascii.eqb_refl. now left.
  - exists (Cursor (Some c) t (captured st)). split; [|reflexivity].
    cbn [run]. unfold step. rewrite E. simpl. rewrite Hp. now left.
  - apply andb_true_iff in Hplain. destruct Hplain as [P1 P2].
    rewrite <- app_assoc in E.
    destruct (IH1 P1 st _ E) as [st1 [H1 E1]].
    destruct (IH2 P2 st1 _ E1) as [st2 [H2 E2]].
    exists st2. split; [|exact E2]. cbn [run]. apply in_flat_map. now exists st1.
  - destruct (IH Hplain st t E) as [st' [H' E']].
    exists st'. split; [|exact E']. cbn [run]. apply in_app_iff. now left.
  - exists st. split; [|exact E]. cbn [run]. apply in_app_iff. right. now left.
  - exists st. split; [|exact E]. cbn [run].
    destruct (length (rest st)); simpl; [now left|].
    apply in_app_iff. right. now left.
  - rewrite <- app_assoc in E.
    destruct (IH1 Hplain st _ E) as [st1 [H1 E1]].
    destruct (IH2 Hplain st1 _ E1) as [st2 [H2 E2]].
    exists st2. split; [|exact E2]. cbn [run] in *.
    assert (Hlen : length (rest st1) < length (rest st)).
    { rewrite E, E1, !length_app. destruct w1; [congruence | simpl; lia]. }
    destruct (length (rest st)) as [|k] eqn:Ek; [lia|].
    simpl. apply in_app_iff. left. apply in_flat_map. exists st1. split.
    + apply filter_In. split; [exact H1|]. apply Nat.ltb_lt. lia.
    + rewrite (@iterate_enough _ k (length (rest st1))) by lia. exact H2.
  - destruct (IH Hplain st t E) as [st' [H' E']].
    exists (Cursor (before st') (rest st')
              (Some (firstn (length (rest st) - length (rest st')) (rest st)))).
    split; [|exact E']. cbn [run]. apply in_map_iff. now exists st'.
Qed.

Lemma hd_error_In (A : Type) (l : list A) (x : A) :
  In x l -> is_not_None (hd_error l) = true.
Proof. destruct l; [easy | reflexivity]. Qed.

Lemma is_not_None_hd_error (A : Type) (l : list A) :
  is_not_None (hd_error l) = true -> exists x, In x l.
Proof. destruct l as [|x l]; [discriminate|]. exists x. now left. Qed.

(** ** Naming classifiers *)

Lemma all_ascii_complete (c : ascii) : In c all_ascii.
Proof.
  unfold all_ascii. rewrite <- (ascii_nat_embedding c).
  apply in_map, in_seq. pose proof (nat_ascii_bounded c). lia.
Qed.

Lemma chars_within_sound (ok : ascii -> bool) (r : regex) (w : str) :
  lang r w -> chars_within ok r = true -> forallb ok w = true.
Proof.
  induction 1; cbn [chars_within]; intros Hr; try reflexivity.
  - simpl. now rewrite Hr.
  - rewrite forallb_forall in Hr. specialize (Hr c (all_ascii_complete c)).
    rewrite H in Hr. simpl in *. now rewrite Hr.
  - apply andb_true_iff in Hr. destruct Hr as [H1 H2].
    rewrite forallb_app, IHlang1, IHlang2; auto.
  - auto.
  - rewrite forallb_app, IHlang1, IHlang2; auto.
  - auto.
Qed.

Lemma starts_us_app (a b : str) :
  starts_us (a ++ b) = true ->
  starts_us a = true \/ (a = [] /\ starts_us b = true).
Proof. destruct a; simpl; auto. Qed.

Lemma ends_us_cons (c : ascii) (w : str) :
  w <> [] -> ends_us (c :: w) = ends_us w.
Proof. destruct w; [congruence | reflexivity]. Qed.

Lemma ends_us_app (a b : str) :
  ends_us (a ++ b) = true ->
  ends_us b = true \/ (b = [] /\ ends_us a = true).
Proof.
  induction a as [|c a IH]; [auto|].
  destruct b as [|d b]; [rewrite app_nil_r; auto|].
  rewrite <- app_comm_cons, ends_us_cons by (destruct a; discriminate).
  intros H. destruct (IH H) as [H' | [H' _]]; [auto | discriminate].
Qed.

Lemma contains_cons (sub : str) (c : ascii) (s : str) :
  contains sub s = true -> contains sub (c :: s) = true.
Proof. intros H. simpl. rewrite H. apply orb_true_r. Qed.

Lemma double_us_app (a b : str) :
  contains (py "__") (a ++ b) = true ->
  contains (py "__") a = true \/ contains (py "__") b = true
  \/ (ends_us a = true /\ starts_us b = true).
Proof.
  induction a as [|x a IH]; [auto|].
  rewrite <- app_comm_cons. cbn [contains]. rewrite orb_true_iff.
  intros [H | H].
  - destruct a as [|y a].
    + destruct b as [|z b];
        cbn [startswith py String.list_ascii_of_string app] in H;
        [now rewrite andb_false_r in H|].
      rewrite !andb_true_iff in H. destruct H as [Hx [Hz _]].
      right. right. cbn [ends_us starts_us]. unfold is_underscore.
      rewrite Ascii.eqb_sym in Hx. rewrite Ascii.eqb_sym in Hz. auto.
    + left. cbn [startswith py String.list_ascii_of_string app] in H.
      cbn [contains startswith py String.list_ascii_of_string].
      rewrite H. reflexivity.
  - destruct (IH H) as [Ha | [Hb | [He Hs]]].
    + left. now apply contains_cons.
    + auto.
    + right. right. split; [|exact Hs].
      rewrite ends_us_cons; [exact He|]. intros ->. discriminate.
Qed.

Lemma double_us_single (c : ascii) : contains (py "__") [c] = false.
Proof.
  cbn [contains startswith py String.list_ascii_of_string].
  now rewrite andb_false_r.
Qed.

Lemma is_underscore_eq (c : ascii) : is_underscore c = true -> c = "_"%char.
Proof. apply Ascii.eqb_eq. Qed.

(** The summary [shape_of] covers every word of the language. *)
Lemma shape_of_sound (r : regex) (w : str) :
  lang r w ->
  (w = [] -> may_be_empty (shape_of r) = true)
  /\ (starts_us w = true -> may_start_us (shape_of r) = true)
  /\ (ends_us w = true -> may_end_us (shape_of r) = true)
  /\ (contains (py "__") w = true -> may_double_us (shape_of r) = true).
Proof.
  induction 1 as [| c | p c Hp | | | | r1 r2 w1 w2 L1 IH1 L2 IH2
                 | r w L IH | r | r | r w1 w2 Hne L1 IH1 L2 IH2 | r w L IH];
    cbn [shape_of may_be_empty may_start_us may_end_us may_double_us].
  - repeat split; intros; (reflexivity || discriminate).
  - repeat split; try discriminate; cbn [starts_us ends_us]; auto.
    rewrite double_us_single. discriminate.
  - repeat split; try discriminate; cbn [starts_us ends_us];
      try (intros H; apply is_underscore_eq in H; now subst).
    rewrite double_us_single. discriminate.
  - repeat split; intros; (reflexivity || discriminate).
  - repeat split; intros; (reflexivity || discriminate).
  - repeat split; intros; (reflexivity || discriminate).
  - destruct IH1 as (E1 & S1 & N1 & D1), IH2 as (E2 & S2 & N2 & D2).
    repeat split.
    + intros H. apply app_eq_nil in H. destruct H. rewrite E1, E2; auto.
    + intros H. apply starts_us_app in H. destruct H as [H | [H1 H2]].
      * rewrite S1; auto.
      * rewrite E1, S2; auto. apply orb_true_r.
    + intros H. apply ends_us_app in H. destruct H as [H | [H1 H2]].
      * rewrite N2; auto.
      * rewrite E2, N1; auto. apply orb_true_r.
    + intros H. apply double_us_app in H. destruct H as [H | [H | [H1 H2]]].
      * rewrite D1; auto.
      * rewrite D2; auto. rewrite orb_true_r. reflexivity.
      * rewrite N1, S2; auto. apply orb_true_r.
  - destruct IH as (E1 & S1 & N1 & D1). repeat split; auto.
  - repeat split; intros; (reflexivity || discriminate).
  - repeat split; intros; (reflexivity || discriminate).
  - destruct IH1 as (E1 & S1 & N1 & D1), IH2 as (E2 & S2 & N2 & D2).
    cbn [shape_of may_be_empty may_start_us may_end_us may_double_us] in *.
    repeat split.
    + intros H. apply starts_us_app in H. destruct H as [H | [H1 H2]]; auto.
    + intros H. apply ends_us_app in H. destruct H as [H | [H1 H2]]; auto.
    + intros H. apply double_us_app in H. destruct H as [H | [H | [H1 H2]]].
      * rewrite D1; auto.
      * auto.
      * rewrite N1, S2; auto. apply orb_true_r.
  - destruct IH as (E1 & S1 & N1 & D1). repeat split; auto.
Qed.

(** What [re.match] on an anchored pattern [^body$] accepts. *)
Lemma anchored_match_sound (body : regex) (s : str) :
  is_not_None (re_match (Cat Bol (Cat body Eol)) s) = true ->
  exists w tail, s = w ++ tail /\ lang body w /\ at_end tail = true.
Proof.
  unfold re_match. intros H. apply is_not_None_hd_error in H.
  destruct H as [st H]. cbn [run before flat_map] in H.
  rewrite app_nil_r in H.
  apply in_flat_map in H. destruct H as [st1 [H1 H2]].
  apply run_sound in H1. destruct H1 as [w [E L]]. simpl in E.
  destruct (at_end (rest st1)) eqn:Ee; [|easy].
  exists w, (rest st1). auto.
Qed.

Lemma anchored_match_complete (body : regex) (s : str) :
  plain body = true -> lang body s ->
  is_not_None (re_match (Cat Bol (Cat body Eol)) s) = true.
Proof.
  intros Hp L. unfold re_match.
  destruct (@run_complete body s L Hp (Cursor None s None) [])
    as [st' [H' E']]; [simpl; now rewrite app_nil_r|].
  apply hd_error_In with st'. cbn [run before flat_map]. rewrite app_nil_r.
  apply in_flat_map. exists st'. split; [exact H'|].
  rewrite E'. now left.
Qed.

(** Words of the language, found by running the matcher. *)
Lemma lang_by_run (r : regex) (s : str) :
  existsb (fun st => str_eqb (rest st) []) (run r (Cursor None s None)) = true ->
  lang r s.
Proof.
  intros H. apply existsb_exists in H. destruct H as [st [H E]].
  apply str_eqb_eq in E. apply run_sound in H. destruct H as [w [Ew L]].
  simpl in Ew. rewrite E, app_nil_r in Ew. now subst.
Qed.

Lemma at_end_cases (tail : str) :
  at_end tail = true -> tail = [] \/ tail = ["010"%char].
Proof.
  destruct tail as [|c [|d t]]; simpl; auto; [|discriminate].
  intros H. apply N.eqb_eq in H. right. f_equal.
  apply ord_inj. exact H.
Qed.

(** C7.  A string in the language of [_?[a-z0-9]+(_[a-z0-9]+)*_?] is
    snake_case; a string with an uppercase letter, or with two underscores
    in a row, is not. *)
Theorem is_snake_case_spec (s : str) :
  (lang snake_body s -> is_snake_case s = true)
  /\ (existsb isupper s = true -> is_snake_case s = false)
  /\ (contains (py "__") s = true -> is_snake_case s = false).
Proof.
  split; [|split].
  - intros L. now apply anchored_match_complete.
  - intros H. destruct (is_snake_case s) eqn:E; [|reflexivity]. exfalso.
    apply anchored_match_sound in E. destruct E as (w & tail & -> & L & He).
    apply (@chars_within_sound (fun c => negb (isupper c))) in L;
      [|reflexivity].
    rewrite existsb_app in H. apply orb_true_iff in H. destruct H as [H | H].
    + apply existsb_exists in H. destruct H as [c [Hc Hu]].
      rewrite forallb_forall in L. specialize (L c Hc). now rewrite Hu in L.
    + apply at_end_cases in He. destruct He as [-> | ->]; discriminate.
  - intros H. destruct (is_snake_case s) eqn:E; [|reflexivity]. exfalso.
    apply anchored_match_sound in E. destruct E as (w & tail & -> & L & He).
    apply shape_of_sound in L. destruct L as (_ & _ & _ & D).
    apply double_us_app in H. destruct H as [H | [H | [_ H]]].
    + apply D in H. discriminate.
    + apply at_end_cases in He. destruct He as [-> | ->]; discriminate.
    + apply at_end_cases in He. destruct He as [-> | ->]; discriminate.
Qed.

Lemma is_snake_case_spec_witness :
  is_snake_case (py "snake_case") = true
  /\ is_snake_case (py "Bad_Name") = false
  /\ is_snake_case (py "a__b") = false.
Proof.
  split; [|split].
  - apply (proj1 (is_snake_case_spec (py "snake_case"))).
    apply lang_by_run. reflexivity.
  - apply (proj1 (proj2 (is_snake_case_spec (py "Bad_Name")))). reflexivity.
  - apply (proj2 (proj2 (is_snake_case_spec (py "a__b")))). reflexivity.
Defined.

(** ** Line rules *)

Lemma split_head (maxsplit : option nat) (t : str) :
  exists p ps rest, split "#" maxsplit t = p :: ps /\ t = p ++ rest.
Proof.
  revert maxsplit. induction t as [|c t IH]; intros maxsplit.
  - exists [], [], []. split; reflexivity.
  - cbn [split].
    destruct (IH maxsplit) as (p & ps & rest & E & Et).
    destruct (Ascii.eqb c "#"), maxsplit as [[|k]|];
      try (rewrite E; exists (c :: p), ps, rest; split;
           [reflexivity | now rewrite Et]);
      eexists [], _, (c :: t); split; reflexivity.
Qed.

Lemma split_after_first_marker (line : str) :
  match after_first_marker line with
  | None => length (split "#" None line) = 1
  | Some t => exists p, split "#" None line = p :: split "#" None t
  end.
Proof.
  induction line as [|c line IH]; [reflexivity|].
  cbn [after_first_marker split]. destruct (Ascii.eqb c "#").
  - now exists [].
  - destruct (after_first_marker line) as [t|].
    + destruct IH as [p E]. rewrite E. now exists (c :: p).
    + destruct (split "#" None line) as [|p [|q ps]]; try discriminate.
      reflexivity.
Qed.

Lemma startswith_app (sub a b : str) :
  startswith sub a = true -> startswith sub (a ++ b) = true.
Proof.
  revert a. induction sub as [|x sub IH]; intros [|y a]; simpl; auto.
  - discriminate.
  - rewrite !andb_true_iff. intros [H1 H2]. auto.
Qed.

Lemma contains_app_l (sub a b : str) :
  contains sub a = true -> contains sub (a ++ b) = true.
Proof.
  induction a as [|y a IH].
  - simpl. rewrite orb_false_r. destruct sub; [|discriminate].
    intros _. destruct b; reflexivity.
  - cbn [contains app]. rewrite !orb_true_iff. intros [H | H].
    + left. now apply (startswith_app _ (y :: a) b).
    + right. now apply IH.
Qed.

(** When the code reports a TODO, the specification does too. *)
Lemma has_todo_comment_sound (line : str) :
  has_todo_comment line = true -> todo_after_first_marker line = true.
Proof.
  unfold has_todo_comment, todo_after_first_marker.
  pose proof (split_after_first_marker line) as H.
  destruct (after_first_marker line) as [t|].
  - destruct H as [p E]. rewrite E.
    destruct (split_head None t) as (q & qs & rest & Eq & Et).
    rewrite Eq. cbn [length nth]. destruct (1 <? _); [|discriminate].
    rewrite Et. unfold lower. rewrite map_app. apply contains_app_l.
  - rewrite H. simpl. discriminate.
Qed.

(** C4.  The code looks for [todo] between the first marker and the second,
    not in all the text after the first: on a line whose TODO stands behind
    a second marker, the condition of the rule holds and the code does not
    fire. *)
Theorem has_todo_comment_misses_later_marker :
  todo_after_first_marker todo_behind_second_marker = true
  /\ has_todo_comment todo_behind_second_marker = false.
Proof. split; reflexivity. Qed.

Lemma run_Lit_sound (w : str) (st st' : cursor) :
  In st' (run (Lit w) st) -> rest st = w ++ rest st'.
Proof.
  revert st. induction w as [|c w IH]; intros st; cbn [Lit run].
  - now intros [<- | []].
  - intros H. apply in_flat_map in H. destruct H as [st1 [H1 H2]].
    apply step_sound in H1. destruct H1 as [x [Hx E]].
    apply Ascii.eqb_eq in Hx. subst x. rewrite E. simpl. f_equal. now apply IH.
Qed.

Lemma class_name_match_at_start (line : str) (m : cursor) :
  re_match class_name_pattern line = Some m ->
  startswith (py "class") line = true.
Proof.
  unfold re_match, class_name_pattern. intros H.
  assert (Hin : In m (run (Cat (Lit (py "class"))
                             (Cat (Plus (Cls isspace))
                                (Group (Plus (Cls is_word_char)))))
                        (Cursor None line None))).
  { destruct (run _ _) as [|y l]; [discriminate|].
    injection H as ->. now left. }
  cbn [run] in Hin. apply in_flat_map in Hin. destruct Hin as [st1 [H1 _]].
  apply run_Lit_sound in H1. simpl in H1. rewrite H1. reflexivity.
Qed.

Lemma line_rules_S008 (fp : str) (n : Z) (line : str) (x : issue) :
  In x (line_rules fp (n, line)) -> issue_code x = py "S008" ->
  exists m, re_match class_name_pattern line = Some m.
Proof.
  unfold line_rules. rewrite !in_app_iff.
  intros [H | [H | [H | [H | [H | [H | H]]]]]] Hc.
  - destruct (is_line_too_long line); [|easy].
    destruct H as [<- | []]. discriminate.
  - destruct (is_indentation_not_multiple_of_four line); [|easy].
    destruct H as [<- | []]. discriminate.
  - destruct (has_unnecessary_semicolon line); [|easy].
    destruct H as [<- | []]. discriminate.
  - destruct (has_less_than_two_spaces_before_inline_comment line); [|easy].
    destruct H as [<- | []]. discriminate.
  - destruct (has_todo_comment line); [|easy].
    destruct H as [<- | []]. discriminate.
  - destruct (check_too_many_spaces_after_construction_name line)
      as [[|] [name|]]; try easy.
    destruct H as [<- | []]. discriminate.
  - destruct (re_match class_name_pattern line) as [m|]; [|easy].
    now exists m.
Qed.

(** C9.  An S008 issue is reported only for a line that begins with the
    word [class]; for a line whose [class] comes after white space the rule
    does not fire, whatever the name of the class. *)
Theorem class_rule_needs_column_zero (fp : str) (n : Z) (line : str) :
  (forall x,
      In x (line_rules fp (n, line)) -> issue_code x = py "S008" ->
      startswith (py "class") line = true)
  /\ (forall indent tail,
         indent <> [] -> forallb isspace indent = true ->
         line = indent ++ py "class" ++ tail ->
         forallb (fun x => negb (has_code (py "S008") x))
           (line_rules fp (n, line)) = true).
Proof.
  assert (H1 : forall x,
             In x (line_rules fp (n, line)) -> issue_code x = py "S008" ->
             startswith (py "class") line = true).
  { intros x Hx Hc. destruct (line_rules_S008 _ _ _ _ Hx Hc) as [m Hm].
    eapply class_name_match_at_start; eauto. }
  split; [exact H1|].
  intros indent tail Hne Hsp ->. apply forallb_forall. intros x Hx.
  destruct (has_code (py "S008") x) eqn:Hc; [|reflexivity]. exfalso.
  apply str_eqb_eq in Hc. specialize (H1 x Hx Hc).
  destruct indent as [|c indent]; [congruence|].
  simpl in Hsp. apply andb_true_iff in Hsp. destruct Hsp as [Hsp _].
  cbn [startswith py String.list_ascii_of_string app] in H1.
  apply andb_true_iff in H1. destruct H1 as [H1 _].
  apply Ascii.eqb_eq in H1. subst c. discriminate.
Qed.

Lemma class_rule_needs_column_zero_witness :
  forallb (fun x => negb (has_code (py "S008") x))
    (line_rules (py "a.py") (3%Z, py "    class myClass:")) = true.
Proof.
  apply (proj2 (class_rule_needs_column_zero (py "a.py") 3
                  (py "    class myClass:")) (py "    ") (py " myClass:")).
  - discriminate.
  - reflexivity.
  - reflexivity.
Defined.

(* ================================================================== *)
(** * Further properties of the rules *)

(** ** Facts about strings *)

Lemma dropwhile_app_all (p : ascii -> bool) (a b : str) :
  forallb p a = true -> dropwhile p (a ++ b) = dropwhile p b.
Proof.
  induction a as [|c a IH]; [reflexivity|].
  simpl. intros H. apply andb_true_iff in H. destruct H as [Hc Ha].
  rewrite Hc. now apply IH.
Qed.

Lemma forallb_rev (p : ascii -> bool) (s : str) :
  forallb p (rev s) = forallb p s.
Proof.
  induction s as [|c s IH]; [reflexivity|].
  simpl. rewrite forallb_app, IH. simpl. rewrite andb_true_r. apply andb_comm.
Qed.

Lemma rstrip_app_spaces (s ws : str) :
  forallb isspace ws = true -> rstrip (s ++ ws) = rstrip s.
Proof.
  intros H. unfold rstrip. rewrite rev_app_distr.
  rewrite dropwhile_app_all; [reflexivity|]. now rewrite forallb_rev.
Qed.

Lemma rstrip_visible (s : str) : ends_visible s = true -> rstrip s = s.
Proof.
  unfold ends_visible, rstrip. intros H.
  destruct (rev s) as [|c r] eqn:E.
  - apply (f_equal (@rev ascii)) in E. rewrite rev_involutive in E. now subst.
  - simpl. apply negb_true_iff in H. rewrite H.
    rewrite <- E. apply rev_involutive.
Qed.

Lemma contains_single (c : ascii) (s : str) :
  contains [c] s = existsb (Ascii.eqb c) s.
Proof.
  induction s as [|y s IH]; [reflexivity|].
  cbn [contains startswith existsb]. rewrite IH.
  destruct s; now rewrite andb_true_r.
Qed.

Lemma no_marker_forall (s : str) :
  no_marker s = true -> forallb (fun c => negb (Ascii.eqb c "#")) s = true.
Proof.
  unfold no_marker. change (py "#") with ["#"%char].
  rewrite contains_single, negb_true_iff.
  induction s as [|y s IH]; [reflexivity|].
  cbn [existsb forallb]. rewrite orb_false_iff. intros [H1 H2].
  rewrite Ascii.eqb_sym, H1. cbn [negb andb]. now apply IH.
Qed.

Lemma split_no_marker (maxsplit : option nat) (s : str) :
  no_marker s = true -> split "#" maxsplit s = [s].
Proof.
  intros H. apply no_marker_forall in H. revert H.
  induction s as [|c s IH]; [reflexivity|].
  cbn [forallb split]. intros H. apply andb_true_iff in H.
  destruct H as [Hc Hs].
  apply negb_true_iff in Hc. rewrite Hc, (IH Hs). reflexivity.
Qed.

Lemma split_zero (s : str) : split "#" (Some 0) s = [s].
Proof.
  induction s as [|c s IH]; [reflexivity|].
  cbn [split]. rewrite IH. now destruct (Ascii.eqb c "#").
Qed.

Lemma split_at_first_marker (maxsplit : option nat) (code rest : str) :
  no_marker code = true ->
  split "#" maxsplit (code ++ "#"%char :: rest)
  = match maxsplit with
    | Some 0 => [code ++ "#"%char :: rest]
    | Some (S n) => code :: split "#" (Some n) rest
    | None => code :: split "#" None rest
    end.
Proof.
  intros H. destruct maxsplit as [[|n]|]; [apply split_zero | |];
    apply no_marker_forall in H; revert H;
    (induction code as [|c code IH];
     [cbn [app split]; now rewrite Ascii.eqb_refl|]);
    cbn [forallb split app]; intros H; apply andb_true_iff in H;
    destruct H as [Hc Hs];
    apply negb_true_iff in Hc; rewrite Hc, (IH Hs); reflexivity.
Qed.

Lemma contains_marker_app (code rest : str) :
  contains (py "#") (code ++ "#"%char :: rest) = true.
Proof.
  change (py "#") with ["#"%char]. rewrite contains_single, existsb_app.
  cbn [existsb]. rewrite Ascii.eqb_refl. apply orb_true_r.
Qed.

(** ** S001 to S005 *)

(** X1.  Trailing white space does not count for the length of a line: a
    text that ends with a visible character, followed by any white space,
    is too long exactly when the text itself has more than 79 characters. *)
Theorem is_line_too_long_visible_length (text ws : str) :
  ends_visible text = true -> forallb isspace ws = true ->
  is_line_too_long (text ++ ws) = (79 <? Z.of_nat (length text))%Z.
Proof.
  intros Hv Hw. unfold is_line_too_long.
  now rewrite rstrip_app_spaces, rstrip_visible.
Qed.

Lemma is_line_too_long_visible_length_witness :
  is_line_too_long (repeat "a"%char 80 ++ py "   ") = true
  /\ is_line_too_long (repeat "a"%char 79 ++ py "   ") = false.
Proof.
  split.
  - apply (@is_line_too_long_visible_length (repeat "a"%char 80) (py "   "));
      reflexivity.
  - apply (@is_line_too_long_visible_length (repeat "a"%char 79) (py "   "));
      reflexivity.
Defined.

Lemma lstrip_spaces (k : nat) (rest : str) :
  starts_without " " rest = true ->
  lstrip_chars (py " ") (spaces k ++ rest) = rest.
Proof.
  intros H. unfold lstrip_chars, spaces.
  change (py " ") with [" "%char].
  induction k as [|k IH]; cbn [repeat app dropwhile].
  - destruct rest as [|x rest]; [reflexivity|].
    cbn [starts_without dropwhile existsb] in *.
    apply negb_true_iff in H. now rewrite H.
  - cbn [existsb]. rewrite Ascii.eqb_refl. exact IH.
Qed.

(** X2.  Only the spaces at the start of a line count as indentation: a
    line made of [k] spaces and a rest that does not begin with a space
    (a tab, code, or nothing at all) is reported exactly when [k] is not a
    multiple of four. *)
Theorem is_indentation_not_multiple_of_four_spaces (k : nat) (rest : str) :
  starts_without " " rest = true ->
  is_indentation_not_multiple_of_four (spaces k ++ rest)
  = negb (k mod 4 =? 0).
Proof.
  intros H. unfold is_indentation_not_multiple_of_four.
  rewrite (lstrip_spaces k rest H), length_app.
  unfold spaces. rewrite repeat_length.
  replace (Z.of_nat (k + length rest) - Z.of_nat (length rest))%Z
    with (Z.of_nat k) by lia.
  change 4%Z with (Z.of_nat 4). rewrite <- Nat2Z.inj_mod.
  pose proof (Nat.mod_upper_bound k 4 ltac:(lia)) as Hb.
  destruct (k mod 4 =? 0) eqn:E.
  - apply Nat.eqb_eq in E. rewrite E. reflexivity.
  - apply Nat.eqb_neq in E.
    destruct (Z.eqb_spec (Z.of_nat (k mod 4)) 0) as [E0|_]; [lia|].
    destruct (Z.eqb_spec (Z.of_nat k) 0) as [E0|_]; [|reflexivity].
    assert (k = 0) by lia. subst k. simpl in E. congruence.
Qed.

Lemma is_indentation_not_multiple_of_four_spaces_witness :
  is_indentation_not_multiple_of_four (spaces 6 ++ py "x = 1") = true.
Proof.
  apply (@is_indentation_not_multiple_of_four_spaces 6 (py "x = 1")).
  reflexivity.
Defined.

(** X3.  The semicolon rule looks at the text before the first comment
    marker only: what follows the marker never changes its answer. *)
Theorem has_unnecessary_semicolon_ignores_comment (code comment : str) :
  no_marker code = true ->
  has_unnecessary_semicolon (code ++ "#"%char :: comment)
  = has_unnecessary_semicolon code.
Proof.
  intros H. unfold has_unnecessary_semicolon.
  now rewrite (@split_at_first_marker (Some 1) code comment H),
    (@split_no_marker (Some 1) code H).
Qed.

Lemma has_unnecessary_semicolon_ignores_comment_witness :
  has_unnecessary_semicolon (py "x = 1  # done;") = false.
Proof.
  apply (@has_unnecessary_semicolon_ignores_comment (py "x = 1  ")
           (py " done;")).
  reflexivity.
Defined.

(** X4.  The inline-comment rule fires on a line with a comment marker
    exactly when the text before the first marker is not empty and ends
    neither with two spaces nor with a tab, whatever the comment says; it
    never fires on a line without a marker. *)
Theorem has_less_than_two_spaces_before_inline_comment_spec
    (code comment : str) :
  no_marker code = true ->
  has_less_than_two_spaces_before_inline_comment (code ++ "#"%char :: comment)
  = negb (length code =? 0) && negb (endswith (py "  ") code)
    && negb (endswith ["009"%char] code)
  /\ has_less_than_two_spaces_before_inline_comment code = false.
Proof.
  intros H. unfold has_less_than_two_spaces_before_inline_comment. split.
  - rewrite contains_marker_app,
      (@split_at_first_marker (Some 1) code comment H).
    reflexivity.
  - unfold no_marker in H. apply negb_true_iff in H. now rewrite H.
Qed.

Lemma has_less_than_two_spaces_before_inline_comment_spec_witness :
  has_less_than_two_spaces_before_inline_comment (py "x = 1 # note") = true
  /\ has_less_than_two_spaces_before_inline_comment (py "x = 1 ") = false.
Proof.
  destruct (@has_less_than_two_spaces_before_inline_comment_spec
              (py "x = 1 ") (py " note") eq_refl) as [H1 H2].
  split; [exact H1 | exact H2].
Defined.

Lemma lower_char_marker (c : ascii) :
  Ascii.eqb (lower_char c) "#" = Ascii.eqb c "#".
Proof. destruct c as [[] [] [] [] [] [] [] []]; reflexivity. Qed.

Lemma lower_char_idempotent (c : ascii) :
  lower_char (lower_char c) = lower_char c.
Proof. destruct c as [[] [] [] [] [] [] [] []]; reflexivity. Qed.

Lemma lower_idempotent (s : str) : lower (lower s) = lower s.
Proof.
  unfold lower. rewrite map_map. apply map_ext. apply lower_char_idempotent.
Qed.

Lemma split_lower (s : str) :
  split "#" None (lower s) = map lower (split "#" None s).
Proof.
  induction s as [|c s IH]; [reflexivity|].
  cbn [lower map split]. rewrite lower_char_marker.
  fold (lower s). rewrite IH.
  destruct (Ascii.eqb c "#"); [reflexivity|].
  destruct (split "#" None s); reflexivity.
Qed.

Lemma has_todo_comment_lower (line : str) :
  has_todo_comment (lower line) = has_todo_comment line.
Proof.
  unfold has_todo_comment. rewrite split_lower, length_map.
  destruct (1 <? _); [|reflexivity].
  change (@nil ascii) with (lower []) at 1. rewrite map_nth.
  now rewrite lower_idempotent.
Qed.

(** X5.  The TODO rule does not see the case of letters: two lines that
    differ only in case get the same answer. *)
Theorem has_todo_comment_case_insensitive (a b : str) :
  lower a = lower b -> has_todo_comment a = has_todo_comment b.
Proof.
  intros H. rewrite <- (has_todo_comment_lower a), H.
  apply has_todo_comment_lower.
Qed.

Lemma has_todo_comment_case_insensitive_witness :
  has_todo_comment (py "x = 1  # ToDo: later")
  = has_todo_comment (py "X = 1  # todo: LATER").
Proof.
  apply (@has_todo_comment_case_insensitive (py "x = 1  # ToDo: later")
           (py "X = 1  # todo: LATER")).
  reflexivity.
Defined.

(** ** S007: the patterns [\bclass\s{2,}] and [\bdef\s{2,}] *)

Lemma startswith_prefix (kw s : str) :
  startswith kw s = true <-> exists t, s = kw ++ t.
Proof.
  revert s. induction kw as [|x kw IH]; intros s.
  - split; [intros _; now exists s | reflexivity].
  - destruct s as [|y s]; cbn [startswith].
    + split; [discriminate | intros [t Ht]; discriminate].
    + rewrite andb_true_iff, Ascii.eqb_eq, IH. split.
      * intros [-> [t ->]]. now exists t.
      * intros [t Ht]. injection Ht as -> ->. split; [reflexivity | now exists t].
Qed.

Lemma skipn_prefix (kw t : str) : skipn (length kw) (kw ++ t) = t.
Proof. induction kw; [reflexivity | assumption]. Qed.

Lemma two_spaces_after_spec (kw s : str) :
  two_spaces_after kw s = true <->
  exists c1 c2 t,
    s = kw ++ c1 :: c2 :: t /\ isspace c1 = true /\ isspace c2 = true.
Proof.
  unfold two_spaces_after. rewrite andb_true_iff, startswith_prefix. split.
  - intros [[t ->] H]. rewrite skipn_prefix in H.
    destruct t as [|c1 [|c2 t]]; try discriminate.
    apply andb_true_iff in H. destruct H. now exists c1, c2, t.
  - intros (c1 & c2 & t & -> & H1 & H2). split; [now eexists|].
    now rewrite skipn_prefix, H1, H2.
Qed.

Lemma lang_Lit (kw : str) : lang (Lit kw) kw.
Proof.
  induction kw as [|c kw IH]; [constructor|].
  cbn [Lit]. change (c :: kw) with ([c] ++ kw). constructor; [constructor | exact IH].
Qed.

Lemma lang_Lit_inv (kw w : str) : lang (Lit kw) w -> w = kw.
Proof.
  revert w. induction kw as [|c kw IH]; intros w H; cbn [Lit] in H.
  - now inversion H.
  - inversion H as [| | | | | | r1 r2 w1 w2 H1 H2 | | | | |]; subst.
    inversion H1; subst. simpl. f_equal. now apply IH.
Qed.

Lemma lang_Cls_inv (p : ascii -> bool) (w : str) :
  lang (Cls p) w -> exists c, w = [c] /\ p c = true.
Proof. intros H. inversion H; subst. now eexists. Qed.

Lemma lang_AtLeast2_inv (p : ascii -> bool) (w : str) :
  lang (AtLeast2 (Cls p)) w ->
  exists c1 c2 t, w = c1 :: c2 :: t /\ p c1 = true /\ p c2 = true.
Proof.
  unfold AtLeast2. intros H.
  inversion H as [| | | | | | r1 r2 w1 w2 H1 H2 | | | | |]; subst.
  inversion H2 as [| | | | | | r1' r2' w3 w4 H3 H4 | | | | |]; subst.
  apply lang_Cls_inv in H1. destruct H1 as [c1 [-> P1]].
  apply lang_Cls_inv in H3. destruct H3 as [c2 [-> P2]].
  now exists c1, c2, w4.
Qed.

Lemma lang_AtLeast2 (p : ascii -> bool) (c1 c2 : ascii) :
  p c1 = true -> p c2 = true -> lang (AtLeast2 (Cls p)) [c1; c2].
Proof.
  intros P1 P2. unfold AtLeast2.
  change [c1; c2] with ([c1] ++ [c2] ++ []).
  repeat (constructor; try assumption).
Qed.

(** A keyword pattern [\bkw\s{2,}] matches at the start of [s] exactly when
    [s] begins with [kw] and two white-space characters. *)
Lemma keyword_spaces_match (kw s : str) :
  at_word (hd_error kw) = true ->
  is_not_None
    (re_match (Cat WordB (Cat (Lit kw) (AtLeast2 (Cls isspace)))) s)
  = two_spaces_after kw s.
Proof.
  intros Hw. apply eq_true_iff_eq. rewrite two_spaces_after_spec.
  unfold re_match. cbn [run before rest at_word]. split.
  - intros H. apply is_not_None_hd_error in H. destruct H as [st H].
    destruct (xorb false (at_word (hd_error s))); [|easy].
    cbn [flat_map] in H. rewrite app_nil_r in H.
    apply in_flat_map in H. destruct H as [st1 [H1 H2]].
    apply run_sound in H1. destruct H1 as [w1 [E1 L1]].
    apply run_sound in H2. destruct H2 as [w2 [E2 L2]].
    apply lang_Lit_inv in L1. subst w1.
    apply lang_AtLeast2_inv in L2. destruct L2 as (c1 & c2 & t & -> & P1 & P2).
    exists c1, c2, (t ++ rest st). split; [|auto].
    simpl in E1. rewrite E1, E2. reflexivity.
  - intros (c1 & c2 & t & -> & P1 & P2).
    destruct kw as [|k kw]; [discriminate|]. cbn [hd_error at_word] in Hw.
    cbn [app hd_error at_word]. rewrite Hw. cbn [xorb flat_map].
    rewrite app_nil_r.
    destruct (@run_complete (Cat (Lit (k :: kw)) (AtLeast2 (Cls isspace)))
                ((k :: kw) ++ [c1; c2]))
      with (st := Cursor None ((k :: kw) ++ c1 :: c2 :: t) None) (t := t)
      as [st' [H' _]].
    + constructor; [apply lang_Lit | now apply lang_AtLeast2].
    + clear. cbn [plain AtLeast2]. induction (k :: kw); [reflexivity | assumption].
    + cbn [rest]. now rewrite <- app_assoc.
    + apply hd_error_In with st'. exact H'.
Qed.

(** X6.  The rule about spaces after a keyword, without the patterns: it
    names [class] when the line begins with [class] and two white-space
    characters, and otherwise [def] when the line, stripped of its leading
    white space, begins with [def] and two white-space characters.  An
    indented [def] is seen; an indented [class] is not. *)
Theorem check_too_many_spaces_after_construction_name_spec (line : str) :
  check_too_many_spaces_after_construction_name line
  = if two_spaces_after (py "class") line then (true, Some (py "class"))
    else if two_spaces_after (py "def") (lstrip line)
         then (true, Some (py "def"))
         else (false, None).
Proof.
  unfold check_too_many_spaces_after_construction_name,
    class_spaces_pattern, def_spaces_pattern.
  rewrite !keyword_spaces_match by reflexivity. reflexivity.
Qed.

(** ** S008: the pattern [class\s+(\w+)] *)

Lemma cursor_eta (st : cursor) :
  st = Cursor (before st) (rest st) (captured st).
Proof. now destruct st. Qed.

Lemma run_Lit_exact (kw t : str) (st : cursor) :
  rest st = kw ++ t ->
  run (Lit kw) st = [Cursor (prev_after (before st) kw) t (captured st)].
Proof.
  revert st. induction kw as [|c kw IH]; intros [b r cap] E;
    cbn [rest before captured] in *; subst r; cbn [Lit run prev_after].
  - reflexivity.
  - unfold step. cbn [rest app captured]. rewrite Ascii.eqb_refl.
    cbn [flat_map]. rewrite app_nil_r. now rewrite IH.
Qed.

(** The greedy iteration of a character class reads the longest run first. *)
Lemma run_Star_Cls_head (p : ascii -> bool) (a t : str) (st : cursor) :
  rest st = a ++ t -> forallb p a = true -> starts_outside p t = true ->
  exists l,
    run (Star (Cls p)) st
    = Cursor (prev_after (before st) a) t (captured st) :: l.
Proof.
  revert st. induction a as [|c a IH]; intros [b r cap] E Ha Ht;
    cbn [rest before captured] in *; subst r;
    cbn [run rest app prev_after].
  - destruct t as [|x t]; [now exists []|].
    cbn [starts_outside] in Ht. apply negb_true_iff in Ht.
    cbn [length iterate run]. unfold step. cbn [rest]. rewrite Ht.
    now exists [].
  - cbn [forallb] in Ha. apply andb_true_iff in Ha. destruct Ha as [Hc Ha].
    cbn [length iterate run]. unfold step at 2. cbn [rest captured].
    rewrite Hc. cbn [filter rest length].
    replace (length (a ++ t) <? S (length (a ++ t))) with true
      by (symmetry; apply Nat.ltb_lt; lia).
    cbn [flat_map]. rewrite app_nil_r.
    destruct (IH (Cursor (Some c) (a ++ t) cap) eq_refl Ha Ht) as [l Hl].
    cbn [run rest before captured] in Hl. rewrite Hl.
    now eexists.
Qed.

Lemma word_char_not_space (c : ascii) :
  is_word_char c = true -> isspace c = false.
Proof. destruct c as [[] [] [] [] [] [] [] []]; (reflexivity || discriminate). Qed.

Lemma firstn_consumed (name tail : str) :
  firstn (length (name ++ tail) - length tail) (name ++ tail) = name.
Proof.
  rewrite length_app. replace (length name + length tail - length tail)
    with (length name + 0) by lia.
  rewrite firstn_app_2. simpl. apply app_nil_r.
Qed.

Lemma run_Cat_eq (r1 r2 : regex) (st : cursor) :
  run (Cat r1 r2) st = flat_map (run r2) (run r1 st).
Proof. reflexivity. Qed.

Lemma run_Cls_step (p : ascii -> bool) (c : ascii) (t : str) (st : cursor) :
  rest st = c :: t -> p c = true ->
  run (Cls p) st = [Cursor (Some c) t (captured st)].
Proof. intros E H. cbn [run]. unfold step. now rewrite E, H. Qed.

Lemma run_Plus_Cls_head (p : ascii -> bool) (c : ascii) (a t : str)
    (st : cursor) :
  rest st = c :: a ++ t -> p c = true -> forallb p a = true ->
  starts_outside p t = true ->
  exists l,
    run (Plus (Cls p)) st
    = Cursor (prev_after (Some c) a) t (captured st) :: l.
Proof.
  intros E Hc Ha Ht. unfold Plus.
  rewrite run_Cat_eq, (run_Cls_step p st E Hc).
  cbn [flat_map]. rewrite app_nil_r.
  destruct (@run_Star_Cls_head p a t (Cursor (Some c) (a ++ t) (captured st))
              eq_refl Ha Ht) as [l Hl].
  rewrite Hl. now exists l.
Qed.

(** On a line [class], white space, a name, the pattern captures the name:
    all the word characters up to the first other character. *)
Lemma class_name_match_captures (ws name tail : str) :
  ws <> [] -> forallb isspace ws = true ->
  name <> [] -> forallb is_word_char name = true ->
  starts_outside is_word_char tail = true ->
  exists m,
    re_match class_name_pattern (py "class" ++ ws ++ name ++ tail) = Some m
    /\ group1 m = name.
Proof.
  intros Hws Hsp Hname Hw Ht.
  destruct ws as [|s ws]; [congruence|].
  destruct name as [|d name]; [congruence|].
  cbn [forallb] in Hsp, Hw.
  apply andb_true_iff in Hsp. destruct Hsp as [Hs Hsp].
  apply andb_true_iff in Hw. destruct Hw as [Hd Hw].
  unfold re_match, class_name_pattern.
  rewrite run_Cat_eq.
  rewrite (@run_Lit_exact (py "class") ((s :: ws) ++ (d :: name) ++ tail))
    by reflexivity.
  cbn [flat_map before captured]. rewrite app_nil_r, run_Cat_eq.
  destruct (@run_Plus_Cls_head isspace s ws ((d :: name) ++ tail)
              (Cursor (prev_after None (py "class"))
                 ((s :: ws) ++ (d :: name) ++ tail) None)
              eq_refl Hs Hsp) as [l1 E1].
  { cbn [app starts_outside]. now rewrite (word_char_not_space _ Hd). }
  rewrite E1. cbn [flat_map captured].
  destruct (@run_Plus_Cls_head is_word_char d name tail
              (Cursor (prev_after (Some s) ws) ((d :: name) ++ tail) None)
              eq_refl Hd Hw Ht) as [l2 E2].
  cbn [run] in E2 |- *. rewrite E2.
  cbn [map app hd_error rest before captured].
  eexists. split; [reflexivity|].
  unfold group1. cbn [captured].
  apply (firstn_consumed (d :: name) tail).
Qed.

Lemma line_rules_filter_S008 (fp : str) (n : Z) (line : str) :
  filter (has_code (py "S008")) (line_rules fp (n, line))
  = match re_match class_name_pattern line with
    | Some class_match =>
        if is_camel_case (group1 class_match) then []
        else [(n,
               py "S008 Class name '" ++ group1 class_match
                 ++ py "' should use CamelCase",
               fp)]
    | None => []
    end.
Proof.
  unfold line_rules. rewrite !filter_app.
  repeat match goal with
  | |- context [filter _ (if ?c then _ else [])] =>
      rewrite (@filter_none _ _ (if c then _ else []))
        by (intros x Hx; destruct c; [destruct Hx as [<- | []]; reflexivity
                                     | destruct Hx])
  end.
  rewrite (@filter_none _ _ (match check_too_many_spaces_after_construction_name
                                  line with (true, Some _) => _ | _ => [] end)).
  2:{ intros x Hx.
      destruct (check_too_many_spaces_after_construction_name line)
        as [[|] [nm|]]; try easy.
      destruct Hx as [<- | []]. reflexivity. }
  cbn [app]. destruct (re_match class_name_pattern line) as [m|]; [|reflexivity].
  destruct (is_camel_case (group1 m)); reflexivity.
Qed.

(** X7.  On a line that begins with [class], white space and a name (the
    word characters up to the first other character), the class rule
    reports that name exactly when it is not CamelCase. *)
Theorem class_name_rule_spec (fp : str) (n : Z) (ws name tail : str) :
  ws <> [] -> forallb isspace ws = true ->
  name <> [] -> forallb is_word_char name = true ->
  starts_outside is_word_char tail = true ->
  filter (has_code (py "S008"))
    (line_rules fp (n, py "class" ++ ws ++ name ++ tail))
  = if is_camel_case name then []
    else [(n, py "S008 Class name '" ++ name ++ py "' should use CamelCase",
           fp)].
Proof.
  intros Hws Hsp Hname Hw Ht. rewrite line_rules_filter_S008.
  destruct (class_name_match_captures tail Hws Hsp Hname Hw Ht) as [m [E G]].
  rewrite E, G. reflexivity.
Qed.

Lemma class_name_rule_spec_witness :
  filter (has_code (py "S008"))
    (line_rules (py "a.py") (7%Z, py "class  my_class(Base):"))
  = [(7%Z, py "S008 Class name 'my_class' should use CamelCase", py "a.py")].
Proof.
  apply (@class_name_rule_spec (py "a.py") 7 (py "  ") (py "my_class")
           (py "(Base):")).
  - discriminate.
  - reflexivity.
  - discriminate.
  - reflexivity.
  - reflexivity.
Defined.

(** ** [is_camel_case] *)

Lemma starts_in_app (q : ascii -> bool) (a b : str) :
  starts_in q (a ++ b) = true ->
  starts_in q a = true \/ (a = [] /\ starts_in q b = true).
Proof. destruct a; simpl; auto. Qed.

Lemma ends_in_cons (q : ascii -> bool) (c : ascii) (w : str) :
  w <> [] -> ends_in q (c :: w) = ends_in q w.
Proof. destruct w; [congruence | reflexivity]. Qed.

Lemma ends_in_app (q : ascii -> bool) (a b : str) :
  ends_in q (a ++ b) = true ->
  ends_in q b = true \/ (b = [] /\ ends_in q a = true).
Proof.
  induction a as [|c a IH]; [auto|].
  destruct b as [|d b]; [rewrite app_nil_r; auto|].
  rewrite <- app_comm_cons, ends_in_cons by (destruct a; discriminate).
  intros H. destruct (IH H) as [H' | [H' _]]; [auto | discriminate].
Qed.

Lemma adjacent_step (q : ascii -> bool) (x y : ascii) (t : str) :
  adjacent q (x :: y :: t) = (q x && q y) || adjacent q (y :: t).
Proof. reflexivity. Qed.

Lemma adjacent_app (q : ascii -> bool) (a b : str) :
  adjacent q (a ++ b) = true ->
  adjacent q a = true \/ adjacent q b = true
  \/ (ends_in q a = true /\ starts_in q b = true).
Proof.
  induction a as [|x a IH]; [auto|].
  destruct a as [|y a].
  - destruct b as [|z b]; [discriminate|].
    cbn [app]. rewrite adjacent_step, orb_true_iff, andb_true_iff.
    intros [[Hx Hz] | H]; [|auto].
    right. right. auto.
  - rewrite <- !app_comm_cons, !adjacent_step, !orb_true_iff.
    intros [H | H]; [auto|].
    rewrite app_comm_cons in H.
    destruct (IH H) as [Ha | [Hb | [He Hs]]]; auto.
Qed.

Lemma existsb_all_ascii (f : ascii -> bool) (c : ascii) :
  f c = true -> existsb f all_ascii = true.
Proof. intros H. apply existsb_exists. exists c. split; [apply all_ascii_complete | exact H]. Qed.

(** The summary [edges_of] covers every word of the language. *)
Lemma edges_of_sound (q : ascii -> bool) (r : regex) (w : str) :
  lang r w ->
  (w = [] -> can_be_empty (edges_of q r) = true)
  /\ (starts_in q w = true -> can_start_in (edges_of q r) = true)
  /\ (ends_in q w = true -> can_end_in (edges_of q r) = true)
  /\ (adjacent q w = true -> can_have_adjacent (edges_of q r) = true).
Proof.
  induction 1 as [| c | p c Hp | | | | r1 r2 w1 w2 L1 IH1 L2 IH2
                 | r w L IH | r | r | r w1 w2 Hne L1 IH1 L2 IH2 | r w L IH];
    cbn [edges_of can_be_empty can_start_in can_end_in can_have_adjacent].
  - repeat split; intros; (reflexivity || discriminate).
  - repeat split; try discriminate; cbn [starts_in ends_in]; auto.
  - repeat split; try discriminate; cbn [starts_in ends_in]; intros H;
      apply existsb_all_ascii with c; now rewrite Hp, H.
  - repeat split; intros; (reflexivity || discriminate).
  - repeat split; intros; (reflexivity || discriminate).
  - repeat split; intros; (reflexivity || discriminate).
  - destruct IH1 as (E1 & S1 & N1 & D1), IH2 as (E2 & S2 & N2 & D2).
    repeat split.
    + intros H. apply app_eq_nil in H. destruct H. rewrite E1, E2; auto.
    + intros H. apply starts_in_app in H. destruct H as [H | [H1 H2]].
      * rewrite S1; auto.
      * rewrite E1, S2; auto. apply orb_true_r.
    + intros H. apply ends_in_app in H. destruct H as [H | [H1 H2]].
      * rewrite N2; auto.
      * rewrite E2, N1; auto. apply orb_true_r.
    + intros H. apply adjacent_app in H. destruct H as [H | [H | [H1 H2]]].
      * rewrite D1; auto.
      * rewrite D2; auto. rewrite orb_true_r. reflexivity.
      * rewrite N1, S2; auto. apply orb_true_r.
  - destruct IH as (E1 & S1 & N1 & D1). repeat split; auto.
  - repeat split; intros; (reflexivity || discriminate).
  - repeat split; intros; (reflexivity || discriminate).
  - destruct IH1 as (E1 & S1 & N1 & D1), IH2 as (E2 & S2 & N2 & D2).
    cbn [edges_of can_be_empty can_start_in can_end_in can_have_adjacent] in *.
    repeat split.
    + intros H. apply starts_in_app in H. destruct H as [H | [H1 H2]]; auto.
    + intros H. apply ends_in_app in H. destruct H as [H | [H1 H2]]; auto.
    + intros H. apply adjacent_app in H. destruct H as [H | [H | [H1 H2]]].
      * rewrite D1; auto.
      * auto.
      * rewrite N1, S2; auto. apply orb_true_r.
  - destruct IH as (E1 & S1 & N1 & D1). repeat split; auto.
Qed.

Lemma run_Cat_assoc (r1 r2 r3 : regex) (st : cursor) :
  run (Cat r1 (Cat r2 r3)) st = run (Cat (Cat r1 r2) r3) st.
Proof. cbn [run]. now rewrite flat_map_flat_map. Qed.

Lemma is_camel_case_anchored (s : str) :
  is_camel_case s
  = is_not_None (re_match (Cat Bol (Cat camel_body Eol)) s).
Proof.
  unfold is_camel_case, re_match, camel_pattern, camel_body.
  f_equal. f_equal. rewrite !(run_Cat_eq Bol).
  apply flat_map_ext. intros st. apply run_Cat_assoc.
Qed.

(** X8.  A string in the language of [[A-Z]([a-z0-9]+[A-Z]?)*] is
    CamelCase.  A CamelCase string begins with a capital, has no two
    capitals side by side, and holds only ASCII letters and digits (and
    possibly a newline, at its end). *)
Theorem is_camel_case_spec (s : str) :
  (lang camel_body s -> is_camel_case s = true)
  /\ (is_camel_case s = true ->
      starts_in upper_letter s = true
      /\ adjacent upper_letter s = false
      /\ forallb (fun c => upper_letter c || lower_or_digit c
                           || Ascii.eqb c newline) s = true).
Proof.
  rewrite is_camel_case_anchored. split.
  - intros L. now apply anchored_match_complete.
  - intros H. apply anchored_match_sound in H.
    destruct H as (w & tail & -> & L & He).
    assert (Ht : tail = [] \/ tail = [newline]) by now apply at_end_cases.
    split; [|split].
    + unfold camel_body in L.
      inversion L as [| | | | | | r1 r2 w1 w2 L1 L2 | | | | |]; subst.
      apply lang_Cls_inv in L1. destruct L1 as [c [-> Hc]]. exact Hc.
    + destruct (adjacent upper_letter (w ++ tail)) eqn:E; [|reflexivity].
      exfalso. apply adjacent_app in E.
      pose proof (edges_of_sound upper_letter L) as (_ & _ & _ & D).
      destruct E as [E | [E | [_ E]]].
      * apply D in E. discriminate.
      * destruct Ht as [-> | ->]; discriminate.
      * destruct Ht as [-> | ->]; discriminate.
    + rewrite forallb_app. apply andb_true_iff. split.
      * apply (@chars_within_sound
                 (fun c => upper_letter c || lower_or_digit c
                           || Ascii.eqb c newline) _ _ L).
        reflexivity.
      * destruct Ht as [-> | ->]; reflexivity.
Qed.

Lemma is_camel_case_spec_witness :
  is_camel_case (py "MyClass") = true
  /\ adjacent upper_letter (py "AbC") = false.
Proof.
  split.
  - apply (proj1 (is_camel_case_spec (py "MyClass"))).
    apply lang_by_run. reflexivity.
  - apply (proj2 (is_camel_case_spec (py "AbC"))). reflexivity.
Defined.

(** X9.  Both classifiers use [$], which also matches before a newline that
    ends the string: a name of the language followed by one newline is
    accepted as well. *)
Theorem classifiers_accept_final_newline (s : str) :
  (lang snake_body s -> is_snake_case (s ++ [newline]) = true)
  /\ (lang camel_body s -> is_camel_case (s ++ [newline]) = true).
Proof.
  assert (H : forall body, plain body = true -> lang body s ->
                           is_not_None
                             (re_match (Cat Bol (Cat body Eol))
                                (s ++ [newline])) = true).
  { intros body Hp L. unfold re_match.
    destruct (@run_complete body s L Hp (Cursor None (s ++ [newline]) None)
                [newline] eq_refl) as [st' [H' E']].
    apply hd_error_In with st'. cbn [run before flat_map].
    rewrite app_nil_r. apply in_flat_map. exists st'. split; [exact H'|].
    rewrite E'. now left. }
  split; intros L.
  - now apply H.
  - rewrite is_camel_case_anchored. now apply H.
Qed.

Lemma classifiers_accept_final_newline_witness :
  is_snake_case (py "snake_case" ++ [newline]) = true
  /\ is_camel_case (py "MyClass" ++ [newline]) = true.
Proof.
  split.
  - apply (proj1 (classifiers_accept_final_newline (py "snake_case"))).
    apply lang_by_run. reflexivity.
  - apply (proj2 (classifiers_accept_final_newline (py "MyClass"))).
    apply lang_by_run. reflexivity.
Defined.

(** ** S009 and S010 *)

Lemma check_function_def_In (l : Z) (nm : str) (a : arguments)
    (body dl : list node) (ret : option node) (fp : str) (x : issue) :
  In x (check_function_def (FunctionDef l nm a body dl ret) fp) <->
  (is_dunder nm = false /\ is_snake_case nm = false
   /\ x = (l, py "S009 Function name '" ++ nm ++ py "' should use snake_case",
           fp))
  \/ In x (check_function_args (FunctionDef l nm a body dl ret) fp)
  \/ In x (check_function_body_for_variables
             (FunctionDef l nm a body dl ret) fp)
  \/ In x (check_mutable_default_arguments
             (FunctionDef l nm a body dl ret) fp).
Proof.
  unfold check_function_def. fold (is_dunder nm). rewrite !in_app_iff.
  apply or_iff_compat_r.
  destruct (is_dunder nm), (is_snake_case nm); simpl; split;
    try tauto; try (intros (H1 & H2 & _); discriminate).
  - intros [<- | []]. auto.
  - intros (_ & _ & ->). now left.
Qed.

(** X10.  S009 fires for the [FunctionDef] nodes of the tree whose name is
    not snake_case, at the line of the function, unless the name begins and
    ends with two underscores; it fires for nothing else. *)
Theorem function_naming_rule (tree : node) (fp : str) (x : issue) :
  In x (check_function_defs tree fp) /\ issue_code x = py "S009" <->
  exists l nm a body dl ret,
    within (FunctionDef l nm a body dl ret) tree
    /\ is_dunder nm = false
    /\ is_snake_case nm = false
    /\ x = (l, py "S009 Function name '" ++ nm ++ py "' should use snake_case",
            fp).
Proof.
  split.
  - intros [H Hc]. unfold check_function_defs in H. apply in_flat_map in H.
    destruct H as [n [Hn H]]. apply walk_within in Hn.
    destruct n as [| l nm a body dl ret | | | | | | | | | |];
      try (simpl in H; tauto).
    apply check_function_def_In in H.
    destruct H as [(Hd & Hs & ->) | [H | [H | H]]].
    + exists l, nm, a, body, dl, ret. auto.
    + apply check_function_args_code in H. rewrite H in Hc. discriminate.
    + apply check_function_body_for_variables_code in H.
      rewrite H in Hc. discriminate.
    + apply check_mutable_default_arguments_code in H.
      rewrite H in Hc. discriminate.
  - intros (l & nm & a & body & dl & ret & Hw & Hd & Hs & ->).
    split; [|reflexivity].
    unfold check_function_defs. apply in_flat_map.
    exists (FunctionDef l nm a body dl ret). split; [now apply walk_within|].
    apply check_function_def_In. left. auto.
Qed.

Lemma function_naming_rule_witness :
  In (1%Z, py "S009 Function name 'Bad' should use snake_case", py "a.py")
    (check_function_defs badly_named_functions (py "a.py"))
  /\ issue_code
       (1%Z, py "S009 Function name 'Bad' should use snake_case", py "a.py")
     = py "S009".
Proof.
  apply (proj2 (function_naming_rule badly_named_functions (py "a.py") _)).
  exists 1%Z, (py "Bad"),
    (mk_arguments [] [mk_arg 1 (py "Arg") None; mk_arg 1 (py "ok") None]
       None [] [] None []),
    [Other 1 []], [], None.
  split; [|split; [|split]].
  - eapply within_child; [|apply within_here]. now left.
  - reflexivity.
  - reflexivity.
  - reflexivity.
Defined.

(** X11.  S010 fires for the parameters in [args.args] (those that can be
    passed by position or by keyword) of the [FunctionDef] nodes of the
    tree, at the line of the parameter, exactly when the name of the
    parameter is not snake_case; names such as [__x__] are not exempt. *)
Theorem argument_naming_rule (tree : node) (fp : str) (x : issue) :
  In x (check_function_defs tree fp) /\ issue_code x = py "S010" <->
  exists l nm a body dl ret param,
    within (FunctionDef l nm a body dl ret) tree
    /\ In param (arguments_args a)
    /\ is_snake_case (arg_arg param) = false
    /\ x = (arg_lineno param,
            py "S010 Argument name '" ++ arg_arg param
              ++ py "' should be snake_case",
            fp).
Proof.
  split.
  - intros [H Hc]. unfold check_function_defs in H. apply in_flat_map in H.
    destruct H as [n [Hn H]]. apply walk_within in Hn.
    destruct n as [| l nm a body dl ret | | | | | | | | | |];
      try (simpl in H; tauto).
    apply check_function_def_In in H.
    destruct H as [(Hd & Hs & ->) | [H | [H | H]]].
    + discriminate.
    + cbn [check_function_args] in H. apply in_flat_map in H.
      destruct H as [param [Hp H]].
      destruct (is_snake_case (arg_arg param)) eqn:Es; simpl in H; [tauto|].
      destruct H as [<- | []].
      exists l, nm, a, body, dl, ret, param. auto.
    + apply check_function_body_for_variables_code in H.
      rewrite H in Hc. discriminate.
    + apply check_mutable_default_arguments_code in H.
      rewrite H in Hc. discriminate.
  - intros (l & nm & a & body & dl & ret & param & Hw & Hp & Hs & ->).
    split; [|reflexivity].
    unfold check_function_defs. apply in_flat_map.
    exists (FunctionDef l nm a body dl ret). split; [now apply walk_within|].
    apply check_function_def_In. right. left.
    cbn [check_function_args]. apply in_flat_map. exists param.
    split; [exact Hp|]. rewrite Hs. now left.
Qed.

Lemma argument_naming_rule_witness :
  In (1%Z, py "S010 Argument name 'Arg' should be snake_case", py "a.py")
    (check_function_defs badly_named_functions (py "a.py"))
  /\ issue_code
       (1%Z, py "S010 Argument name 'Arg' should be snake_case", py "a.py")
     = py "S010".
Proof.
  apply (proj2 (argument_naming_rule badly_named_functions (py "a.py") _)).
  exists 1%Z, (py "Bad"),
    (mk_arguments [] [mk_arg 1 (py "Arg") None; mk_arg 1 (py "ok") None]
       None [] [] None []),
    [Other 1 []], [], None, (mk_arg 1 (py "Arg") None).
  split; [|split; [|split]].
  - eapply within_child; [|apply within_here]. now left.
  - now left.
  - reflexivity.
  - reflexivity.
Defined.

Lemma flat_map_nil (A B : Type) (f : A -> list B) (l : list A) :
  (forall x, In x l -> f x = []) -> flat_map f l = [].
Proof.
  induction l as [|x l IH]; intros H; [reflexivity|].
  simpl. rewrite (H x) by now left. apply IH. intros y Hy. apply H. now right.
Qed.

(** X12.  The tree rules look at [def] statements only: a tree without a
    [FunctionDef] node gets no issue, whatever the names assigned at module
    level, in class bodies or in [async def] functions. *)
Theorem tree_rules_need_function_def (tree : node) (fp : str) :
  (forall m, within m tree -> is_function_def m = false) ->
  check_function_defs tree fp = [].
Proof.
  intros H. unfold check_function_defs. apply flat_map_nil.
  intros n Hn. apply walk_within in Hn. apply H in Hn.
  destruct n; (reflexivity || discriminate).
Qed.

Lemma tree_rules_need_function_def_witness :
  check_function_defs module_without_def (py "a.py") = [].
Proof.
  apply (@tree_rules_need_function_def module_without_def (py "a.py")).
  intros m Hm. apply subtree_within in Hm.
  assert (Hall : forallb (fun n => negb (is_function_def n))
                   (subtree module_without_def) = true) by reflexivity.
  rewrite forallb_forall in Hall. apply Hall in Hm.
  now apply negb_true_iff in Hm.
Defined.

(** ** The issues of a file *)

Lemma line_rules_line_file (fp : str) (n : Z) (line : str) (x : issue) :
  In x (line_rules fp (n, line)) -> issue_line x = n /\ issue_file x = fp.
Proof.
  unfold line_rules. rewrite !in_app_iff.
  intros [H | [H | [H | [H | [H | [H | H]]]]]].
  - destruct (is_line_too_long line); [|easy].
    destruct H as [<- | []]. now split.
  - destruct (is_indentation_not_multiple_of_four line); [|easy].
    destruct H as [<- | []]. now split.
  - destruct (has_unnecessary_semicolon line); [|easy].
    destruct H as [<- | []]. now split.
  - destruct (has_less_than_two_spaces_before_inline_comment line); [|easy].
    destruct H as [<- | []]. now split.
  - destruct (has_todo_comment line); [|easy].
    destruct H as [<- | []]. now split.
  - destruct (check_too_many_spaces_after_construction_name line)
      as [[|] [name|]]; try easy.
    destruct H as [<- | []]. now split.
  - destruct (re_match class_name_pattern line) as [m|]; [|easy].
    destruct (negb _); [|easy]. destruct H as [<- | []]. now split.
Qed.

Lemma enumerate_In (A : Type) (start : Z) (l : list A) (n : Z) (x : A) :
  In (n, x) (enumerate start l) -> (start <= n < start + len l)%Z.
Proof.
  revert start. induction l as [|y l IH]; intros start; [easy|].
  cbn [enumerate length]. intros [E | H].
  - injection E as <- _. lia.
  - apply IH in H. lia.
Qed.

Lemma line_level_issues_line_file (fp code : str) (x : issue) :
  In x (line_level_issues fp code) ->
  (1 <= issue_line x <= len (splitlines code))%Z /\ issue_file x = fp.
Proof.
  unfold line_level_issues. rewrite in_app_iff. intros [H | H].
  - apply in_flat_map in H. destruct H as [[n line] [Hn H]].
    apply enumerate_In in Hn. apply line_rules_line_file in H.
    destruct H as [-> ->]. split; [lia | reflexivity].
  - apply in_map_iff in H. destruct H as [n [<- Hn]].
    rewrite has_more_than_two_blank_lines_fires in Hn.
    apply fires_from_bounds in Hn.
    split; [unfold issue_line; cbn [fst]; lia | reflexivity].
Qed.

Lemma check_function_defs_code_file (tree : node) (fp : str) (x : issue) :
  In x (check_function_defs tree fp) ->
  has_line_code x = false /\ issue_file x = fp.
Proof.
  unfold check_function_defs. intros H. apply in_flat_map in H.
  destruct H as [n [_ H]].
  destruct n as [| l nm a body dl ret | | | | | | | | | |];
    try (simpl in H; tauto).
  apply check_function_def_In in H.
  destruct H as [(_ & _ & ->) | [H | [H | H]]].
  - now split.
  - cbn [check_function_args] in H. apply in_flat_map in H.
    destruct H as [p [_ H]]. destruct (negb _); [|easy].
    destruct H as [<- | []]. now split.
  - unfold check_function_body_for_variables in H. apply in_flat_map in H.
    destruct H as [m [_ H]].
    destruct m as [| | | lineno targets value | | | | | | | |];
      try (simpl in H; tauto).
    cbn [check_assign_targets] in H. apply in_flat_map in H.
    destruct H as [t [_ H]].
    destruct t; try (simpl in H; tauto). destruct (negb _); [|easy].
    destruct H as [<- | []]. now split.
  - rewrite check_mutable_default_arguments_spec in H.
    apply in_map_iff in H. destruct H as [d [<- _]]. now split.
Qed.

(** X13.  Every issue [analyze_file] returns names the path it was called
    with; and every issue of a line rule (S001 to S008) carries the number
    of a line of the file, counted from 1. *)
Theorem analyze_file_issues_located read_file ast_parse
    (file_path code : str) (issues : list issue) (x : issue) :
  read_file file_path = Return code ->
  analyze_file read_file ast_parse file_path = Return issues ->
  In x issues ->
  issue_file x = file_path
  /\ (has_line_code x = true ->
      (1 <= issue_line x <= len (splitlines code))%Z).
Proof.
  intros Hr Ha Hx. unfold analyze_file, analyze_code_with_ast in Ha.
  rewrite Hr in Ha. cbn [bind] in Ha.
  destruct (ast_parse code) as [tree|e]; cbn [bind] in Ha; [|discriminate].
  injection Ha as <-. apply in_app_iff in Hx. destruct Hx as [Hx | Hx].
  - apply line_level_issues_line_file in Hx. destruct Hx as [Hl Hf].
    split; [exact Hf | intros _; exact Hl].
  - apply check_function_defs_code_file in Hx. destruct Hx as [Hc Hf].
    split; [exact Hf | intros H; congruence].
Qed.

Lemma analyze_file_issues_located_witness :
  issue_file (1%Z, py "S003 Unnecessary semicolon", py "d/a.py") = py "d/a.py"
  /\ (has_line_code (1%Z, py "S003 Unnecessary semicolon", py "d/a.py") = true
      -> (1 <= issue_line (1%Z, py "S003 Unnecessary semicolon", py "d/a.py")
          <= len (splitlines (py "x = 1;")))%Z).
Proof.
  apply (@analyze_file_issues_located sample_read_file sample_parse
           (py "d/a.py") (py "x = 1;")
           [(1%Z, py "S003 Unnecessary semicolon", py "d/a.py")]).
  - reflexivity.
  - reflexivity.
  - now left.
Defined.

(** ** The issues of a directory *)

Lemma for_each_Return (A B : Type) (body : A -> result (list B))
    (l : list A) (r : list B) :
  for_each body l = Return r <->
  exists parts, Forall2 (fun x ys => body x = Return ys) l parts
                /\ r = concat parts.
Proof.
  revert r. induction l as [|x l IH]; intros r; cbn [for_each].
  - split.
    + intros H. injection H as <-. exists []. split; [constructor | reflexivity].
    + intros [parts [H ->]]. inversion H. reflexivity.
  - split.
    + destruct (body x) as [ys|e] eqn:Ex; cbn [bind]; [|discriminate].
      destruct (for_each body l) as [zs|e] eqn:El; cbn [bind]; [|discriminate].
      intros H. injection H as <-.
      destruct (proj1 (IH zs) eq_refl) as [parts [Hp ->]].
      exists (ys :: parts). split; [now constructor | reflexivity].
    + intros [parts [H ->]]. inversion H as [|? ys ? ps Hx Hl]; subst.
      rewrite Hx. cbn [bind].
      rewrite (proj2 (IH (concat ps))) by now exists ps.
      reflexivity.
Qed.

Lemma for_each_Raise (A B : Type) (body : A -> result (list B))
    (l : list A) (x : A) (e : exn) :
  In x l -> body x = Raise e -> exists e', for_each body l = Raise e'.
Proof.
  induction l as [|y l IH]; [easy|]. intros [-> | H] Hx; cbn [for_each].
  - rewrite Hx. now exists e.
  - destruct (body y) as [ys|e']; cbn [bind]; [|now exists e'].
    destruct (IH H Hx) as [e' ->]. now exists e'.
Qed.

(** X14.  [analyze_directory] returns a list exactly when [analyze_file]
    returns one for every Python file of the walk, and the list is then the
    lists of the files one after the other, in the order of the walk; a
    single file that cannot be read or parsed makes the whole directory
    fail. *)
Theorem analyze_directory_all_or_nothing read_file ast_parse os_walk path_join
    (directory_path : str) :
  (forall issues,
      analyze_directory read_file ast_parse os_walk path_join directory_path
      = Return issues <->
      exists parts,
        Forall2 (fun f ys => analyze_file read_file ast_parse f = Return ys)
          (python_files os_walk path_join directory_path) parts
        /\ issues = concat parts)
  /\ (forall f e,
         In f (python_files os_walk path_join directory_path) ->
         analyze_file read_file ast_parse f = Raise e ->
         exists e',
           analyze_directory read_file ast_parse os_walk path_join
             directory_path = Raise e').
Proof.
  split.
  - intros issues. apply for_each_Return.
  - intros f e. apply for_each_Raise.
Qed.

Lemma analyze_directory_all_or_nothing_witness :
  exists e',
    analyze_directory sample_read_file (fun _ => @Raise node SyntaxError)
      sample_walk sample_join (py "d") = Raise e'.
Proof.
  apply (proj2 (@analyze_directory_all_or_nothing sample_read_file
                  (fun _ => @Raise node SyntaxError) sample_walk sample_join
                  (py "d")) (py "d/a.py") SyntaxError).
  - right. now left.
  - reflexivity.
Defined.

(** ** More on the blank-run rule *)

Lemma fires_from_sorted (i c : Z) (lines : list str) :
  StronglySorted Z.lt (fires_from i c lines).
Proof.
  revert i c. induction lines as [|l ls IH]; intros i c; cbn [fires_from].
  - constructor.
  - destruct (is_blank l); [apply IH|].
    destruct (2 <? c)%Z; cbn [app]; [|apply IH].
    constructor; [apply IH|]. apply Forall_forall. intros n Hn.
    apply fires_from_bounds in Hn. lia.
Qed.

Lemma fires_from_lower (i c : Z) (lines : list str) (n : Z) :
  (0 <= c)%Z -> In n (fires_from i c lines) ->
  (i + 1 + Z.max 0 (3 - c) <= n)%Z.
Proof.
  revert i c. induction lines as [|l ls IH]; intros i c Hc; cbn [fires_from];
    [easy|].
  destruct (is_blank l).
  - intros H. apply IH in H; lia.
  - rewrite in_app_iff. intros [H | H].
    + destruct (2 <? c)%Z eqn:E; [|easy]. apply Z.ltb_lt in E.
      destruct H as [<- | []]. lia.
    + apply IH in H; lia.
Qed.

(** X15.  The line numbers of the blank-run rule come in strictly ascending
    order, and each of them is at least 4 and at most the number of lines. *)
Theorem has_more_than_two_blank_lines_ascending (lines : list str) :
  StronglySorted Z.lt (has_more_than_two_blank_lines lines)
  /\ Forall (fun n => (4 <= n <= len lines)%Z)
       (has_more_than_two_blank_lines lines).
Proof.
  rewrite has_more_than_two_blank_lines_fires. split.
  - apply fires_from_sorted.
  - apply Forall_forall. intros n Hn. split.
    + apply fires_from_lower in Hn; lia.
    + apply fires_from_bounds in Hn. lia.
Qed.

(** ** [print_file_issues] *)

Lemma Zleb_total (x y : Z) : (x <=? y)%Z = true \/ (y <=? x)%Z = true.
Proof. destruct (Z.leb_spec x y); [auto | right; apply Z.leb_le; lia]. Qed.

Lemma Zleb_trans (x y z : Z) :
  (x <=? y)%Z = true -> (y <=? z)%Z = true -> (x <=? z)%Z = true.
Proof. rewrite !Z.leb_le. lia. Qed.

Lemma insert_filter_line (n : Z) (x : issue) (l : list issue) :
  filter (fun y => (issue_line y =? n)%Z) (insert issue_line Z.leb x l)
  = filter (fun y => (issue_line y =? n)%Z) (x :: l).
Proof.
  induction l as [|y l IH]; [reflexivity|].
  cbn [insert]. destruct (issue_line x <=? issue_line y)%Z eqn:E; [reflexivity|].
  apply Z.leb_gt in E. cbn [filter] in *. rewrite IH.
  destruct (Z.eqb_spec (issue_line y) n), (Z.eqb_spec (issue_line x) n);
    try reflexivity.
  lia.
Qed.

Lemma sorted_filter_line (n : Z) (l : list issue) :
  filter (fun y => (issue_line y =? n)%Z) (sorted issue_line Z.leb l)
  = filter (fun y => (issue_line y =? n)%Z) l.
Proof.
  induction l as [|x l IH]; [reflexivity|].
  cbn [sorted]. rewrite insert_filter_line. cbn [filter]. now rewrite IH.
Qed.

(** X16.  [print_file_issues] prints every issue it is given under the one
    path it is called with, in ascending order of line number; issues of the
    same line keep the order in which they were given (they are not ordered
    by code, unlike in [print_issues]). *)
Theorem print_file_issues_stable (relpath : str -> str) (file_path : str)
    (issues : list issue) :
  exists ordered,
    print_file_issues relpath file_path issues
    = map (fun x =>
             relpath file_path ++ py ": Line " ++ str_of_int (issue_line x)
             ++ py ": " ++ issue_message x)
        ordered
    /\ Permutation ordered issues
    /\ StronglySorted (fun x y => (issue_line x <= issue_line y)%Z) ordered
    /\ forall n,
         filter (fun y => (issue_line y =? n)%Z) ordered
         = filter (fun y => (issue_line y =? n)%Z) issues.
Proof.
  exists (sorted issue_line Z.leb issues). split; [reflexivity|].
  split; [apply sorted_perm|]. split.
  - apply StronglySorted_impl
      with (R1 := fun x y => (issue_line x <=? issue_line y)%Z = true).
    + intros x y. apply Z.leb_le.
    + apply sorted_sorted.
      * intros x y. apply Zleb_total.
      * intros x y z. apply Zleb_trans.
  - intros n. apply sorted_filter_line.
Qed.

Example print_file_issues_keeps_input_order :
  print_file_issues (fun p => p) (py "a.py") unordered_issues
  = [py "a.py: Line 3: S008 Class name 'x' should use CamelCase";
     py "a.py: Line 3: S001 Too long";
     py "a.py: Line 5: S002 Indentation is not a multiple of four"].
Proof. reflexivity. Qed.

(** ** More on the TODO rule and on [print_issues] *)

(** X17.  What the TODO rule reads: on a line with a comment marker, the
    text between the first marker and the second one (or the end of the
    line when there is no second marker), in lower case; a line without a
    marker is never reported. *)
Theorem has_todo_comment_between_markers (code segment rest : str) :
  no_marker code = true -> no_marker segment = true ->
  has_todo_comment (code ++ "#"%char :: segment ++ "#"%char :: rest)
  = contains (py "todo") (lower segment)
  /\ has_todo_comment (code ++ "#"%char :: segment)
     = contains (py "todo") (lower segment)
  /\ has_todo_comment code = false.
Proof.
  intros Hc Hs. unfold has_todo_comment. split; [|split].
  - rewrite (@split_at_first_marker None code _ Hc),
      (@split_at_first_marker None segment rest Hs).
    destruct (split_head None rest) as (p & ps & r & E & _). rewrite E.
    reflexivity.
  - rewrite (@split_at_first_marker None code _ Hc),
      (@split_no_marker None segment Hs).
    reflexivity.
  - now rewrite (@split_no_marker None code Hc).
Qed.

Lemma has_todo_comment_between_markers_witness :
  has_todo_comment (py "x = 1  # fix # TODO later")
  = contains (py "todo") (lower (py " fix ")).
Proof.
  apply (@has_todo_comment_between_markers (py "x = 1  ") (py " fix ")
           (py " TODO later"));
    reflexivity.
Defined.

(** X18.  The TODO rule never fires without cause: when it fires, the line
    has a comment marker and the text after the first marker, in lower
    case, contains [todo]. *)
Theorem has_todo_comment_only_for_todo (line : str) :
  has_todo_comment line = true ->
  exists comment,
    after_first_marker line = Some comment
    /\ contains (py "todo") (lower comment) = true.
Proof.
  intros H. apply has_todo_comment_sound in H.
  unfold todo_after_first_marker in H.
  destruct (after_first_marker line) as [comment|]; [|discriminate].
  now exists comment.
Qed.

Lemma has_todo_comment_only_for_todo_witness :
  exists comment,
    after_first_marker (py "x = 1  # TODO: fix") = Some comment
    /\ contains (py "todo") (lower comment) = true.
Proof.
  apply (@has_todo_comment_only_for_todo (py "x = 1  # TODO: fix")).
  reflexivity.
Defined.

(** X19.  What [print_issues] prints depends on the issues it is given and
    not on their order: any rearrangement of the list gives the same
    lines. *)
Theorem print_issues_order_independent (relpath : str -> str)
    (l1 l2 : list issue) :
  Permutation l1 l2 -> print_issues relpath l1 = print_issues relpath l2.
Proof.
  intros P. unfold print_issues. f_equal.
  apply (sorted_unique issue_le_antisym).
  - apply sorted_issues_sorted.
  - apply sorted_issues_sorted.
  - rewrite !sorted_issues_perm. exact P.
Qed.

Lemma print_issues_order_independent_witness :
  print_issues (fun p => p) unordered_issues
  = print_issues (fun p => p) (rev unordered_issues).
Proof.
  apply (@print_issues_order_independent (fun p => p) unordered_issues
           (rev unordered_issues)).
  apply Permutation_rev.
Defined.

(* ================================================================== *)
(** * Assignments in nested functions *)

Lemma issue_eq_dec (x y : issue) : {x = y} + {x <> y}.
Proof. repeat decide equality. Defined.

(** What the walk emits at a node is one S011 issue for each misnamed
    target of the node. *)
Lemma check_assign_targets_issues (n : node) (fp : str) :
  check_assign_targets n fp = assignment_issues fp n.
Proof.
  destruct n as [| | | lineno targets value | | | | | | | |]; try reflexivity.
  cbn [check_assign_targets assignment_issues].
  induction targets as [|t targets IH]; [reflexivity|].
  cbn [flat_map misnamed_targets]. rewrite IH.
  destruct t; try reflexivity.
  destruct (is_snake_case id); reflexivity.
Qed.

Lemma misnamed_targets_In (targets : list node) (id : str) :
  In (Name id) targets -> is_snake_case id = false ->
  In id (misnamed_targets targets).
Proof.
  intros Hin Hs. induction targets as [|t targets IH]; [easy|].
  destruct Hin as [-> | Hin].
  - cbn [misnamed_targets]. rewrite Hs. now left.
  - specialize (IH Hin). destruct t; cbn [misnamed_targets]; auto.
    destruct (is_snake_case id0); [exact IH | now right].
Qed.

Lemma count_occ_copies (k : nat) (l : list issue) (x : issue) :
  count_occ issue_eq_dec (copies k l) x = k * count_occ issue_eq_dec l x.
Proof.
  unfold copies. induction k as [|k IH]; [reflexivity|].
  cbn [repeat concat]. rewrite count_occ_app, IH. lia.
Qed.

Lemma count_occ_flat_map_le (A : Type) (f : A -> list issue) (l : list A)
    (a : A) (x : issue) :
  In a l ->
  count_occ issue_eq_dec (f a) x <= count_occ issue_eq_dec (flat_map f l) x.
Proof.
  induction l as [|b l IH]; [easy|].
  cbn [flat_map]. rewrite count_occ_app. intros [-> | H]; [lia|].
  specialize (IH H). lia.
Qed.

Lemma count_occ_filter_le (p : issue -> bool) (l : list issue) (x : issue) :
  count_occ issue_eq_dec (filter p l) x <= count_occ issue_eq_dec l x.
Proof.
  induction l as [|y l IH]; [reflexivity|].
  cbn [filter]. destruct (p y); cbn [count_occ];
    destruct (issue_eq_dec y x); lia.
Qed.

(** C10, as stated, fails: the assignment stands in a function nested in
    another function, and is reported exactly once, because the outer
    function is an [async def]. *)
Lemma nested_in_async_reported_once :
  check_function_defs nested_in_async (py "a.py")
  = [variable_issue (py "a.py") 3 (py "Bad")].
Proof. reflexivity. Qed.

(** C10, amended.  The S011 issues of a tree are, up to order, one issue
    per misnamed target of every assignment, repeated once for each [def]
    statement ([FunctionDef] node) on the way from the root of the tree to
    the assignment; [async def] statements are not counted.  So a misnamed
    target of an assignment that stands inside [k] such statements is
    reported at least [k] times: the same violation several times when the
    functions are nested, not exactly once. *)
Theorem nested_assignment_reported_per_def (tree : node) (fp : str) :
  Permutation (filter (has_code (py "S011")) (check_function_defs tree fp))
    (flat_map
       (fun item => copies (fst item) (assignment_issues fp (snd item)))
       (nesting tree))
  /\ (forall k m, In (k, m) (nesting tree) <-> depth_of tree m k)
  /\ (forall lineno targets value id k,
         depth_of tree (Assign lineno targets value) k ->
         In (Name id) targets ->
         is_snake_case id = false ->
         k <= count_occ issue_eq_dec (check_function_defs tree fp)
                (variable_issue fp lineno id)).
Proof.
  assert (P : Permutation
                (filter (has_code (py "S011")) (check_function_defs tree fp))
                (flat_map
                   (fun item =>
                      copies (fst item) (assignment_issues fp (snd item)))
                   (nesting tree))).
  { rewrite (check_function_defs_by_depth fp tree).
    erewrite flat_map_ext; [reflexivity|].
    intros item. now rewrite check_assign_targets_issues. }
  split; [exact P|]. split; [intros k m; apply nesting_depth|].
  intros lineno targets value id k Hd Hin Hs.
  apply nesting_depth in Hd.
  set (x := variable_issue fp lineno id).
  assert (Hx : 1 <= count_occ issue_eq_dec
                      (assignment_issues fp (Assign lineno targets value)) x).
  { apply (count_occ_In issue_eq_dec). cbn [assignment_issues].
    apply in_map. now apply misnamed_targets_In. }
  pose proof (count_occ_copies k
                (assignment_issues fp (Assign lineno targets value)) x) as Hk.
  pose proof (count_occ_flat_map_le
                (fun item : nat * node =>
                   copies (fst item) (assignment_issues fp (snd item)))
                (nesting tree) (k, Assign lineno targets value) x Hd) as Hf.
  cbn [fst snd] in Hf.
  pose proof (proj1 (Permutation_count_occ issue_eq_dec _ _) P x) as Hp.
  pose proof (count_occ_filter_le (has_code (py "S011"))
                (check_function_defs tree fp) x) as Hl.
  nia.
Qed.

Lemma nested_assignment_reported_per_def_witness :
  2 <= count_occ issue_eq_dec
         (check_function_defs nested_functions (py "a.py"))
         (variable_issue (py "a.py") 3 (py "Bad")).
Proof.
  apply (proj2 (proj2 (nested_assignment_reported_per_def nested_functions
                         (py "a.py")))
           3%Z [Name (py "Bad")] (Other 3 []) (py "Bad") 2).
  - apply nesting_depth. cbv [nesting nested_functions].
    cbn [size nesting_upto iter_child_nodes is_function_def flat_map app
         of_option map present no_arguments].
    do 5 right. now left.
  - now left.
  - reflexivity.
Defined.
